(** * The spatial transform core of ITK

    A shallow embedding of [itkTransform.hxx] (the shared machinery of every
    transform variant: parameter update protocol, Jacobian-based transport of
    vectors, covariant vectors and tensors) and of the sign predicates of
    [itkNumericTraitsVectorPixel.h], with the properties the specification
    states about them. *)

From Stdlib Require Import ZArith List Lia Floats SpecFloat FloatAxioms Ring.
From stdpp Require Import base list.

(** ** Scalars

    [TParametersValueType] is a template parameter; the code only uses the
    operations below on it.  Everything that does not depend on algebraic laws
    is proved for an arbitrary instance, so in particular for binary64. *)

Class Scalar (T : Type) := {
  ZeroValue : T;                 (* NumericTraits<T>::ZeroValue(), literal 0.0 *)
  OneValue : T;                  (* literal 1.0 *)
  MinusOne : T;                  (* literal -1.0 *)
  s_add : T -> T -> T;
  s_sub : T -> T -> T;
  s_mul : T -> T -> T;
  s_eqb : T -> T -> bool;        (* operator== *)
  s_ltb : T -> T -> bool         (* operator<  *)
}.

Infix "+!" := s_add (at level 50, left associativity).
Infix "-!" := s_sub (at level 50, left associativity).
Infix "*!" := s_mul (at level 40, left associativity).

(** [double]: the kernel's binary64 numbers, evaluated as the hardware does. *)
#[export] Instance double_Scalar : Scalar float := {|
  ZeroValue := 0%float;
  OneValue := 1%float;
  MinusOne := (-1)%float;
  s_add := PrimFloat.add;
  s_sub := PrimFloat.sub;
  s_mul := PrimFloat.mul;
  s_eqb := PrimFloat.eqb;
  s_ltb := PrimFloat.ltb
|}.

(** Exact integer arithmetic, the reference for statements that only hold
    without rounding. *)
#[export] Instance exact_Scalar : Scalar Z := {|
  ZeroValue := 0%Z;
  OneValue := 1%Z;
  MinusOne := (-1)%Z;
  s_add := Z.add;
  s_sub := Z.sub;
  s_mul := Z.mul;
  s_eqb := Z.eqb;
  s_ltb := Z.ltb
|}.

(** ** Counted loops and arrays *)

(** [for (unsigned int i = 0; i < n; ++i) body] over a state [St]. *)
Definition for_loop {St : Type} (n : nat) (body : nat -> St -> St) (s : St) : St :=
  fold_left (fun acc i => body i acc) (seq 0 n) s.

Lemma for_loop_0 {St : Type} (body : nat -> St -> St) (s : St) :
  for_loop 0 body s = s.
Proof. reflexivity. Qed.

Lemma for_loop_S {St : Type} (n : nat) (body : nat -> St -> St) (s : St) :
  for_loop (S n) body s = body n (for_loop n body s).
Proof.
  unfold for_loop. rewrite seq_S, fold_left_app. reflexivity.
Qed.

(** A loop whose body keeps an invariant, indexed by the iteration count. *)
Lemma for_loop_invariant {St : Type} (P : nat -> St -> Prop) (n : nat)
    (body : nat -> St -> St) (s : St) :
  P 0 s ->
  (forall i acc, i < n -> P i acc -> P (S i) (body i acc)) ->
  P n (for_loop n body s).
Proof.
  intros H0 Hstep. induction n as [|n IH].
  - exact H0.
  - rewrite for_loop_S. apply Hstep; [lia|]. apply IH.
    intros i acc Hi. apply Hstep. lia.
Qed.

(** Dense matrices, read as [m(i, j)] and [m[i][j]]. *)
Definition Matrix (T : Type) : Type := nat -> nat -> T.

(** [m[k][i] = x] *)
Definition set_entry {T : Type} (m : Matrix T) (k i : nat) (x : T) : Matrix T :=
  fun k' i' => if (k' =? k) && (i' =? i) then x else m k' i'.

Section Arrays.
Context {T : Type} `{Scalar T}.

(** [a[i]] where the index is in range by the array's type or by a size
    check made before; outside the range the model reads [ZeroValue]. *)
Definition item (a : list T) (i : nat) : T := default ZeroValue (a !! i).

(** Sum of [f 0 .. f (n - 1)] accumulated from [ZeroValue] in index order. *)
Fixpoint sum_upto (n : nat) (f : nat -> T) : T :=
  match n with
  | 0 => ZeroValue
  | S k => sum_upto k f +! f k
  end.

(** The order read off [operator<], and the laws of exact arithmetic:
    a commutative ring whose squares are not negative and whose
    non-negative elements are closed under sum and product. *)
Definition s_opp (x : T) : T := ZeroValue -! x.
Definition s_lt (x y : T) : Prop := s_ltb x y = true.
Definition s_le (x y : T) : Prop := s_ltb y x = false.

Record OrderedRingLaws : Prop := {
  laws_ring : ring_theory ZeroValue OneValue s_add s_mul s_sub s_opp eq;
  laws_square : forall x, s_le ZeroValue (x *! x);
  laws_add : forall x y,
    s_le ZeroValue x -> s_le ZeroValue y -> s_le ZeroValue (x +! y);
  laws_mul : forall x y,
    s_le ZeroValue x -> s_le ZeroValue y -> s_le ZeroValue (x *! y);
  laws_lt_le : forall x, s_lt ZeroValue x -> s_le ZeroValue x
}.

Lemma item_insert_eq (a : list T) (i : nat) (x : T) :
  i < length a -> item (<[i:=x]> a) i = x.
Proof.
  intros Hi. unfold item. rewrite list_lookup_insert_eq by exact Hi. reflexivity.
Qed.

Lemma item_insert_ne (a : list T) (i j : nat) (x : T) :
  i <> j -> item (<[i:=x]> a) j = item a j.
Proof.
  intros Hij. unfold item. rewrite list_lookup_insert_ne by exact Hij. reflexivity.
Qed.

Lemma item_lookup (a : list T) (i : nat) :
  i < length a -> a !! i = Some (item a i).
Proof.
  intros Hi. unfold item. destruct (lookup_lt_is_Some_2 a i Hi) as [x ->]. reflexivity.
Qed.

(** Two arrays of one length with the same items are the same array. *)
Lemma item_ext (a b : list T) :
  length a = length b ->
  (forall i, i < length a -> item a i = item b i) ->
  a = b.
Proof.
  intros Hlen Hitem. apply list_eq_same_length with (length a); [symmetry; exact Hlen|reflexivity|].
  intros i x y Hi Hx Hy.
  specialize (Hitem i Hi). unfold item in Hitem. rewrite Hx, Hy in Hitem. exact Hitem.
Qed.

(** A sum depends on its terms below the bound only. *)
Lemma sum_upto_ext (n : nat) (f g : nat -> T) :
  (forall k, k < n -> f k = g k) -> sum_upto n f = sum_upto n g.
Proof.
  intros Hfg. induction n as [|n IH]; [reflexivity|].
  cbn [sum_upto]. rewrite IH, Hfg by (intros; try apply Hfg; lia). reflexivity.
Qed.

End Arrays.

(** ** The transform object and the interface its variants fill *)

(** The exceptions [itkExceptionMacro] raises in [itkTransform.hxx], one per
    site, with the sizes the message reports. *)
Inductive ExceptionObject : Type :=
  | ParameterUpdateSizeMismatch (update_size number_of_parameters : nat)
  | InputVectorSizeMismatch (size : nat)
  | InputDiffusionTensorSizeMismatch (size : nat)
  | InputSymmetricTensorSizeMismatch (size : nat).

(** What a const evaluation with a size check does: it returns, it throws,
    or it reads or writes outside an array, which C++ leaves undefined. *)
Inductive Result (A : Type) : Type :=
  | Returns (a : A)
  | Throws (e : ExceptionObject)
  | OutOfRange.
Arguments Returns {A} a.
Arguments Throws {A} e.
Arguments OutOfRange {A}.

(** [unsigned int] products, as in [VInputDimension * VInputDimension]. *)
Definition unsigned_int_mul (a b : nat) : nat :=
  Z.to_nat ((Z.of_nat a * Z.of_nat b) mod 4294967296).

(** [unsigned int] sums, and the index [j + n * i] of entry [(i, j)] of a
    matrix stored row by row, computed in [unsigned int] as the code does. *)
Definition unsigned_int_add (a b : nat) : nat :=
  Z.to_nat ((Z.of_nat a + Z.of_nat b) mod 4294967296).

Definition row_major_index (n i j : nat) : nat :=
  unsigned_int_add j (unsigned_int_mul n i).

(** Where a raw pointer of [CopyInParameters] points: into the data block of
    the transform's own [m_Parameters], or into some other array. *)
Inductive Block : Type :=
  | ParametersBlock
  | ForeignBlock (id : nat).

Record Pointer : Type := mkPointer { block : Block; offset : nat }.

#[export] Instance Block_eq_dec : EqDecision Block.
Proof. solve_decision. Defined.

#[export] Instance Pointer_eq_dec : EqDecision Pointer.
Proof. solve_decision. Defined.

Section Transform.
Context {T : Type} `{Scalar T}.

(** Template arguments. *)
Variables VInputDimension VOutputDimension : nat.

(** The data members a variant adds to the base class. *)
Context {Derived : Type}.

Record Transform : Type := mkTransform {
  m_Parameters : list T;
  m_FixedParameters : list T;
  m_Derived : Derived
}.

Definition Point : Type := list T.

(** The virtual functions [itkTransform.hxx] calls.  [GetParameters] is
    const in C++ but variants refresh the mutable [m_Parameters] in it, so
    it maps the object to the object. *)
Class Variant : Type := {
  GetNumberOfParameters : Transform -> nat;
  GetParameters : Transform -> Transform;
  SetParameters : list T -> Transform -> Transform;
  ComputeJacobianWithRespectToPosition : Transform -> Point -> Matrix T
}.
Context {V : Variant}.

(** [vnl_svd_fixed<...>(m).inverse()], the pseudo-inverse routine. *)
Variable svd_inverse : Matrix T -> Matrix T.

(** [ComputeEigenAnalysis] of a diffusion tensor: three eigenvalues in
    ascending order and the matrix whose rows are their eigenvectors. *)
Variable ComputeEigenAnalysis : list T -> list T * Matrix T.

(** [Vector::Normalize]. *)
Variable Normalize : list T -> list T.

(** What an element holds that was created and never assigned: in a
    default-constructed fixed-size array, and in the storage [SetSize] of a
    variable-length vector allocates. *)
Variable fresh_array : T.
Variable fresh_heap : T.

(** The calls that can change the object or notify its observers, in the
    order they are made. *)
Inductive Event : Type :=
  | CallGetParameters
  | CallSetParameters (parameters : list T)
  | CallModified.

(** How a mutating member function ends: the object it leaves and the calls
    it made.  [OutOfBounds] is an access outside an array, which C++ leaves
    undefined. *)
Inductive Outcome : Type :=
  | Completed (t : Transform) (calls : list Event)
  | Thrown (e : ExceptionObject) (t : Transform) (calls : list Event)
  | OutOfBounds.

Definition with_Parameters (p : list T) (t : Transform) : Transform :=
  {| m_Parameters := p;
     m_FixedParameters := m_FixedParameters t;
     m_Derived := m_Derived t |}.

(** [a[k] += x] on an unchecked array. *)
Definition add_at (k : nat) (x : T) (a : list T) : option (list T) :=
  match a !! k with
  | Some v => Some (<[k := v +! x]> a)
  | None => None
  end.

Definition UpdateTransformParameters (update : list T) (factor : T)
    (t : Transform) : Outcome :=
  let numberOfParameters := GetNumberOfParameters t in
  if decide (length update <> numberOfParameters) then
    Thrown (ParameterUpdateSizeMismatch (length update) numberOfParameters) t []
  else
    let t := GetParameters t in
    let updated :=
      if s_eqb factor OneValue then
        for_loop numberOfParameters
          (fun k p => p ≫= add_at k (item update k))
          (Some (m_Parameters t))
      else
        for_loop numberOfParameters
          (fun k p => p ≫= add_at k (item update k *! factor))
          (Some (m_Parameters t)) in
    match updated with
    | Some p =>
        Completed (SetParameters p (with_Parameters p t))
                  [CallGetParameters; CallSetParameters p; CallModified]
    | None => OutOfBounds
    end.

Definition TransformVector (t : Transform) (vector : list T) (point : Point)
    : list T :=
  let jacobian := ComputeJacobianWithRespectToPosition t point in
  let result := repeat fresh_array VOutputDimension in
  for_loop VOutputDimension (fun i result =>
    let result := <[i := ZeroValue]> result in
    for_loop VInputDimension (fun j result =>
      <[i := item result i +! jacobian i j *! item vector j]> result) result)
    result.

(** The [InputVnlVectorType] overload has the body of [TransformVector]
    word for word; the [InputVectorPixelType] overload checks the size and
    sizes its result on the heap. *)
Definition TransformVector_VectorPixel (t : Transform) (vector : list T)
    (point : Point) : Result (list T) :=
  if decide (length vector <> VInputDimension) then
    Throws (InputVectorSizeMismatch (length vector))
  else
    let jacobian := ComputeJacobianWithRespectToPosition t point in
    let result := repeat fresh_heap VOutputDimension in
    Returns
      (for_loop VOutputDimension (fun i result =>
         let result := <[i := ZeroValue]> result in
         for_loop VInputDimension (fun j result =>
           <[i := item result i +! jacobian i j *! item vector j]> result) result)
         result).

Definition ComputeInverseJacobianWithRespectToPosition (t : Transform)
    (pnt : Point) : Matrix T :=
  let forward_jacobian := ComputeJacobianWithRespectToPosition t pnt in
  svd_inverse forward_jacobian.

Definition TransformCovariantVector (t : Transform) (vector : list T)
    (point : Point) : list T :=
  let jacobian := ComputeInverseJacobianWithRespectToPosition t point in
  let result := repeat fresh_array VOutputDimension in
  for_loop VOutputDimension (fun i result =>
    let result := <[i := ZeroValue]> result in
    for_loop VInputDimension (fun j result =>
      <[i := item result i +! jacobian j i *! item vector j]> result) result)
    result.

Definition TransformCovariantVector_VectorPixel (t : Transform)
    (vector : list T) (point : Point) : Result (list T) :=
  if decide (length vector <> VInputDimension) then
    Throws (InputVectorSizeMismatch (length vector))
  else
    let jacobian := ComputeInverseJacobianWithRespectToPosition t point in
    let result := repeat fresh_heap VOutputDimension in
    Returns
      (for_loop VOutputDimension (fun i result =>
         let result := <[i := ZeroValue]> result in
         for_loop VInputDimension (fun j result =>
           <[i := item result i +! jacobian j i *! item vector j]> result) result)
         result).

(** Arithmetic of [Vector<T, 3>] and [Matrix<T, 3, 3>] used by the tensor
    reorientation, from itkVector, itkMatrix and itkCrossHelper. *)
Definition Matrix_times_Vector (m : Matrix T) (v : list T) : list T :=
  map (fun r => sum_upto 3 (fun c => m r c *! item v c)) (seq 0 3).

Definition Vector_dot (v w : list T) : T :=
  sum_upto 3 (fun i => item v i *! item w i).

Definition Vector_scale (v : list T) (s : T) : list T :=
  map (fun i => item v i *! s) (seq 0 3).

Definition Vector_minus (v w : list T) : list T :=
  map (fun i => item v i -! item w i) (seq 0 3).

Definition CrossHelper (u v : list T) : list T :=
  [ item u 1 *! item v 2 -! item v 1 *! item u 2;
    item v 0 *! item u 2 -! item u 0 *! item v 2;
    item u 0 *! item v 1 -! item v 0 *! item u 1 ].

(** The local [rotated] of the reorientation: the sum of the three outer
    products, weighted by the eigenvalues of the input tensor. *)
Definition rotated_matrix (inputTensor : list T) (jacobian : Matrix T) : Matrix T :=
  (* the identity, overwritten with the 3x3 block of the inverse Jacobian *)
  let matrix : Matrix T := fun i j =>
    if (i <? VInputDimension) && (j <? VOutputDimension) && (i <? 3) && (j <? 3)
    then jacobian i j
    else if i =? j then OneValue else ZeroValue in
  let '(eigenValues, eigenVectors) := ComputeEigenAnalysis inputTensor in
  let ev1 := map (fun i => eigenVectors 2 i) (seq 0 3) in
  let ev2 := map (fun i => eigenVectors 1 i) (seq 0 3) in
  let ev1 := Normalize (Matrix_times_Vector matrix ev1) in
  let ev2 := Matrix_times_Vector matrix ev2 in
  let dp := Vector_dot ev2 ev1 in
  let '(ev2, dp) :=
    if s_ltb dp ZeroValue
    then (Vector_scale ev2 MinusOne, dp *! MinusOne)
    else (ev2, dp) in
  let ev2 := Normalize (Vector_minus ev2 (Vector_scale ev1 dp)) in
  let ev3 := CrossHelper ev1 ev2 in
  let e1 : Matrix T := fun i j => item eigenValues 2 *! item ev1 i *! item ev1 j in
  let e2 : Matrix T := fun i j => item eigenValues 1 *! item ev2 i *! item ev2 j in
  let e3 : Matrix T := fun i j => item eigenValues 0 *! item ev3 i *! item ev3 j in
  fun i j => e1 i j +! e2 i j +! e3 i j.

Definition PreservationOfPrincipalDirectionDiffusionTensor3DReorientation
    (inputTensor : list T) (jacobian : Matrix T) : list T :=
  let rotated := rotated_matrix inputTensor jacobian in
  [ rotated 0 0; rotated 0 1; rotated 0 2;
    rotated 1 1; rotated 1 2; rotated 2 2 ].

Definition TransformDiffusionTensor3D (t : Transform) (inputTensor : list T)
    (point : Point) : list T :=
  let invJacobian := ComputeInverseJacobianWithRespectToPosition t point in
  PreservationOfPrincipalDirectionDiffusionTensor3DReorientation inputTensor invJacobian.

Definition TransformDiffusionTensor3D_VectorPixel (t : Transform)
    (inputTensor : list T) (point : Point) : Result (list T) :=
  if decide (length inputTensor <> 6) then
    Throws (InputDiffusionTensorSizeMismatch (length inputTensor))
  else
    let inTensor :=
      for_loop 5 (fun i inTensor => <[i := item inputTensor i]> inTensor)
               (repeat fresh_array 6) in
    let outTensor := TransformDiffusionTensor3D t inTensor point in
    let outputTensor :=
      for_loop 5 (fun i outputTensor => <[i := item outTensor i]> outputTensor)
               (repeat fresh_heap 6) in
    Returns outputTensor.

(** The product of vnl matrices, [n] being the inner dimension. *)
Definition Matrix_times_Matrix (n : nat) (a b : Matrix T) : Matrix T :=
  fun i j => sum_upto n (fun k => a i k *! b k j).

(** The flattened overload for symmetric tensors.  The size handed to
    [SetSize] and the indices [j + n * i] are [unsigned int] expressions; an
    element of [inputTensor] or [outputTensor] outside the array is an
    access that C++ leaves undefined. *)
Definition TransformSymmetricSecondRankTensor_VectorPixel (t : Transform)
    (inputTensor : list T) (point : Point) : Result (list T) :=
  if decide (length inputTensor <> unsigned_int_mul VInputDimension VInputDimension) then
    Throws (InputSymmetricTensorSizeMismatch (length inputTensor))
  else
    let jacobian := ComputeJacobianWithRespectToPosition t point in
    let invJacobian := ComputeInverseJacobianWithRespectToPosition t point in
    let tensor : option (Matrix T) :=
      for_loop VInputDimension (fun i tensor =>
        for_loop VInputDimension (fun j tensor =>
          tensor ≫= fun tensor =>
            match inputTensor !! row_major_index VInputDimension i j with
            | Some x => Some (set_entry tensor i j x)
            | None => None
            end) tensor)
        (Some (fun _ _ => fresh_heap)) in
    match tensor with
    | None => OutOfRange
    | Some tensor =>
        let outTensor :=
          Matrix_times_Matrix VInputDimension
            (Matrix_times_Matrix VInputDimension jacobian tensor) invJacobian in
        let outputTensor :=
          repeat fresh_heap (unsigned_int_mul VOutputDimension VOutputDimension) in
        let outputTensor : option (list T) :=
          for_loop VOutputDimension (fun i outputTensor =>
            for_loop VOutputDimension (fun j outputTensor =>
              outputTensor ≫= fun outputTensor =>
                let k := row_major_index VOutputDimension i j in
                if decide (k < length outputTensor)
                then Some (<[k := outTensor i j]> outputTensor)
                else None) outputTensor)
            (Some outputTensor) in
        match outputTensor with
        | None => OutOfRange
        | Some outputTensor => Returns outputTensor
        end
    end.

(** [std::copy(begin, end, m_Parameters.data_block())]: the source range
    has to lie in one array and to fit into the destination.  The
    destination starts at offset 0, so copying forward from the parameters'
    own block reads no element already overwritten. *)
Definition copy_into_Parameters (memory : nat -> list T) (begin end_ : Pointer)
    (t : Transform) : option (list T) :=
  let source :=
    match block begin with
    | ParametersBlock => m_Parameters t
    | ForeignBlock id => memory id
    end in
  let n := offset end_ - offset begin in
  if decide (block begin = block end_ /\ offset begin <= offset end_
             /\ offset end_ <= length source /\ n <= length (m_Parameters t))
  then Some (take n (drop (offset begin) source) ++ drop n (m_Parameters t))
  else None.

Definition CopyInParameters (memory : nat -> list T) (begin end_ : Pointer)
    (t : Transform) : Outcome :=
  if decide (begin = end_) then
    Completed t []
  else
    let copied :=
      if decide (begin <> mkPointer ParametersBlock 0)
      then copy_into_Parameters memory begin end_ t
      else Some (m_Parameters t) in
    match copied with
    | Some p => Completed (SetParameters p (with_Parameters p t)) [CallSetParameters p]
    | None => OutOfBounds
    end.

(** The contract between the base class and a variant that the update
    protocol leans on: the parameter count is the length of the vector
    [GetParameters] refreshes, and submitting the stored vector through
    [SetParameters] keeps it as the stored and as the refreshed vector. *)
Record VariantContract : Prop := {
  contract_size : forall t,
    length (m_Parameters (GetParameters t)) = GetNumberOfParameters t;
  contract_resubmit : forall t,
    m_Parameters (SetParameters (m_Parameters t) t) = m_Parameters t;
  contract_reread : forall t,
    m_Parameters (GetParameters (SetParameters (m_Parameters t) t)) = m_Parameters t
}.

(** The parameter vector a caller reads through [GetParameters]. *)
Definition Parameters (t : Transform) : list T := m_Parameters (GetParameters t).






(** *** Loops that accumulate a matrix-vector product *)

Lemma accumulate_row (i m : nat) (term : nat -> T) (r : list T) :
  i < length r ->
  for_loop m (fun j r => <[i := item r i +! term j]> r) (<[i := ZeroValue]> r)
  = <[i := sum_upto m term]> r.
Proof.
  intros Hi. induction m as [|m IH].
  - reflexivity.
  - rewrite for_loop_S, IH. cbn [sum_upto].
    rewrite item_insert_eq by exact Hi.
    apply list_insert_insert_eq.
Qed.

Lemma item_map_seq (f : nat -> T) (n i : nat) :
  i < n -> item (map f (seq 0 n)) i = f i.
Proof.
  intros Hi. unfold item.
  rewrite list_lookup_fmap, lookup_seq_lt by exact Hi. reflexivity.
Qed.

Lemma accumulate_rows (n m : nat) (term : nat -> nat -> T) (r0 : list T) :
  length r0 = n ->
  for_loop n (fun i r =>
    let r := <[i := ZeroValue]> r in
    for_loop m (fun j r => <[i := item r i +! term i j]> r) r) r0
  = map (fun i => sum_upto m (term i)) (seq 0 n).
Proof.
  intros Hlen.
  pose (P := fun (k : nat) (r : list T) =>
    length r = n /\ (forall i, i < k -> item r i = sum_upto m (term i))
    /\ (forall i, k <= i -> item r i = item r0 i)).
  assert (HP : P n (for_loop n (fun i r =>
    let r := <[i := ZeroValue]> r in
    for_loop m (fun j r => <[i := item r i +! term i j]> r) r) r0)).
  { apply for_loop_invariant.
    - repeat split; [exact Hlen | intros i Hi; lia].
    - intros k r Hk (Hr & Hdone & Hrest). cbn zeta.
      rewrite accumulate_row by lia.
      repeat split.
      + rewrite length_insert. exact Hr.
      + intros i Hi. destruct (decide (i = k)) as [->|Hne].
        * apply item_insert_eq. lia.
        * rewrite item_insert_ne by congruence. apply Hdone. lia.
      + intros i Hi. rewrite item_insert_ne by lia. apply Hrest. lia. }
  destruct HP as (Hr & Hdone & _).
  apply item_ext.
  - rewrite Hr, length_map, length_seq. reflexivity.
  - intros i Hi. rewrite Hr in Hi.
    rewrite Hdone, item_map_seq by exact Hi. reflexivity.
Qed.

(** *** Vectors and covariant vectors *)

(** The variable-length overload agrees with the fixed-length one on a
    vector of [VInputDimension] elements. *)
Lemma TransformVector_VectorPixel_agrees t vector point :
  length vector = VInputDimension ->
  TransformVector_VectorPixel t vector point = Returns (TransformVector t vector point).
Proof.
  intros Hlen. unfold TransformVector_VectorPixel.
  destruct (decide (length vector <> VInputDimension)) as [Hne|_]; [contradiction|].
  f_equal. unfold TransformVector.
  rewrite !(accumulate_rows VOutputDimension VInputDimension
              (fun i j => ComputeJacobianWithRespectToPosition t point i j *! item vector j))
    by apply repeat_length.
  reflexivity.
Qed.

(** Likewise for covariant vectors. *)
Lemma TransformCovariantVector_VectorPixel_agrees t vector point :
  length vector = VInputDimension ->
  TransformCovariantVector_VectorPixel t vector point
  = Returns (TransformCovariantVector t vector point).
Proof.
  intros Hlen. unfold TransformCovariantVector_VectorPixel.
  destruct (decide (length vector <> VInputDimension)) as [Hne|_]; [contradiction|].
  f_equal. unfold TransformCovariantVector.
  rewrite !(accumulate_rows VOutputDimension VInputDimension
              (fun i j =>
                 ComputeInverseJacobianWithRespectToPosition t point j i *! item vector j))
    by apply repeat_length.
  reflexivity.
Qed.

(** C5. [TransformVector(v, p)] is the product of the Jacobian at [p] with
    [v]: component [i] of the result is the sum over [j], in index order
    from zero, of [Jacobian(p)[i][j] * v[j]]; nothing else of the transform,
    and so no translation term, enters the result.  The variable-length
    overload returns the same on a vector of [VInputDimension] elements. *)
Theorem TransformVector_Jacobian_times_vector t vector point :
  let product :=
    map (fun i =>
           sum_upto VInputDimension (fun j =>
             ComputeJacobianWithRespectToPosition t point i j *! item vector j))
        (seq 0 VOutputDimension) in
  TransformVector t vector point = product
  /\ (length vector = VInputDimension ->
      TransformVector_VectorPixel t vector point = Returns product).
Proof.
  intros product.
  assert (Hfixed : TransformVector t vector point = product).
  { unfold TransformVector.
    apply (accumulate_rows VOutputDimension VInputDimension
             (fun i j => ComputeJacobianWithRespectToPosition t point i j *! item vector j)).
    apply repeat_length. }
  split; [exact Hfixed|].
  intros Hlen. rewrite TransformVector_VectorPixel_agrees by exact Hlen.
  rewrite Hfixed. reflexivity.
Qed.

(** C6. [TransformCovariantVector(v, p)] is the product of the transposed
    inverse Jacobian at [p] with [v]: component [i] of the result is the sum
    over [j] of [InverseJacobian(p)[j][i] * v[j]].  The variable-length
    overload returns the same on a vector of [VInputDimension] elements. *)
Theorem TransformCovariantVector_transposed_inverse_Jacobian t vector point :
  let product :=
    map (fun i =>
           sum_upto VInputDimension (fun j =>
             ComputeInverseJacobianWithRespectToPosition t point j i *! item vector j))
        (seq 0 VOutputDimension) in
  TransformCovariantVector t vector point = product
  /\ (length vector = VInputDimension ->
      TransformCovariantVector_VectorPixel t vector point = Returns product).
Proof.
  intros product.
  assert (Hfixed : TransformCovariantVector t vector point = product).
  { unfold TransformCovariantVector.
    apply (accumulate_rows VOutputDimension VInputDimension
             (fun i j =>
                ComputeInverseJacobianWithRespectToPosition t point j i *! item vector j)).
    apply repeat_length. }
  split; [exact Hfixed|].
  intros Hlen. rewrite TransformCovariantVector_VectorPixel_agrees by exact Hlen.
  rewrite Hfixed. reflexivity.
Qed.

(** *** Size checks of the variable-length overloads *)

Lemma unsigned_int_mul_exact (a b : nat) :
  (Z.of_nat a * Z.of_nat b < 4294967296)%Z -> unsigned_int_mul a b = a * b.
Proof.
  intros Hfit. unfold unsigned_int_mul.
  rewrite Z.mod_small by lia. lia.
Qed.

(** C7. Each variable-length overload throws its size error exactly when
    its argument has the wrong length: [VInputDimension] for vectors and
    covariant vectors, 6 for diffusion tensors, [VInputDimension] squared
    for symmetric tensors (a dimension whose square fits [unsigned int]).
    The error is decided by the length alone: when it is raised, no
    Jacobian has been asked for. *)
Theorem variable_length_overloads_check_size t v point :
  (Z.of_nat VInputDimension * Z.of_nat VInputDimension < 4294967296)%Z ->
  ((exists e, TransformVector_VectorPixel t v point = Throws e)
     <-> length v <> VInputDimension)
  /\ ((exists e, TransformCovariantVector_VectorPixel t v point = Throws e)
     <-> length v <> VInputDimension)
  /\ ((exists e, TransformDiffusionTensor3D_VectorPixel t v point = Throws e)
     <-> length v <> 6)
  /\ ((exists e, TransformSymmetricSecondRankTensor_VectorPixel t v point = Throws e)
     <-> length v <> VInputDimension * VInputDimension).
Proof.
  intros Hfit.
  unfold TransformVector_VectorPixel, TransformCovariantVector_VectorPixel,
    TransformDiffusionTensor3D_VectorPixel,
    TransformSymmetricSecondRankTensor_VectorPixel.
  rewrite (unsigned_int_mul_exact _ _ Hfit).
  repeat split;
    try (intros [e He];
         match type of He with
         | context [decide ?P] => destruct (decide P) as [Hbad|Hok]
         end;
         [assumption
         |cbv zeta in He;
          repeat match type of He with
                 | context [match ?x with Some _ => _ | None => _ end] => destruct x
                 end;
          discriminate He]);
    try (intros Hbad;
         match goal with
         | |- context [decide ?P] => destruct (decide P) as [_|Hok]
         end; [eexists; reflexivity | contradiction]).
Qed.

(** *** The update protocol *)

Lemma update_loop (n : nat) (delta : nat -> T) (p : list T) :
  n = length p ->
  for_loop n (fun k a => a ≫= add_at k (delta k)) (Some p)
  = Some (map (fun k => item p k +! delta k) (seq 0 n)).
Proof.
  intros Hn.
  pose (P := fun (k : nat) (a : option (list T)) =>
    exists l, a = Some l /\ length l = n
      /\ (forall i, i < k -> item l i = item p i +! delta i)
      /\ (forall i, k <= i -> item l i = item p i)).
  assert (HP : P n (for_loop n (fun k a => a ≫= add_at k (delta k)) (Some p))).
  { apply for_loop_invariant.
    - exists p. repeat split; [congruence | intros i Hi; lia].
    - intros k a Hk (l & -> & Hl & Hdone & Hrest). cbn [mbind option_bind].
      unfold add_at. rewrite (item_lookup l k) by lia.
      eexists. split; [reflexivity|]. repeat split.
      + rewrite length_insert. exact Hl.
      + intros i Hi. destruct (decide (i = k)) as [->|Hne].
        * rewrite item_insert_eq by lia. rewrite Hrest by lia. reflexivity.
        * rewrite item_insert_ne by congruence. apply Hdone. lia.
      + intros i Hi. rewrite item_insert_ne by lia. apply Hrest. lia. }
  destruct HP as (l & -> & Hl & Hdone & _). f_equal.
  apply item_ext.
  - rewrite Hl, length_map, length_seq. reflexivity.
  - intros i Hi. rewrite Hl in Hi.
    rewrite Hdone, item_map_seq by exact Hi. reflexivity.
Qed.

(** The increment the update adds at index [k]: the multiplication is
    skipped when the factor compares equal to one. *)
Definition increment (update : list T) (factor : T) (k : nat) : T :=
  if s_eqb factor OneValue then item update k else item update k *! factor.

Lemma UpdateTransformParameters_completes update factor t :
  VariantContract ->
  length update = GetNumberOfParameters t ->
  let p := map (fun k => item (Parameters t) k +! increment update factor k)
               (seq 0 (GetNumberOfParameters t)) in
  let t' := SetParameters p (with_Parameters p (GetParameters t)) in
  UpdateTransformParameters update factor t
    = Completed t' [CallGetParameters; CallSetParameters p; CallModified]
  /\ m_Parameters t' = p /\ Parameters t' = p
  /\ GetNumberOfParameters t' = GetNumberOfParameters t.
Proof.
  intros C Hlen p t'.
  assert (Hstored : m_Parameters t' = p).
  { exact (contract_resubmit C (with_Parameters p (GetParameters t))). }
  assert (Hread : Parameters t' = p).
  { exact (contract_reread C (with_Parameters p (GetParameters t))). }
  repeat split; try assumption.
  - unfold UpdateTransformParameters.
    destruct (decide (length update <> GetNumberOfParameters t)) as [Hne|_];
      [contradiction|].
    assert (Hloop : forall delta,
      for_loop (GetNumberOfParameters t) (fun k a => a ≫= add_at k (delta k))
               (Some (m_Parameters (GetParameters t)))
      = Some (map (fun k => item (Parameters t) k +! delta k)
                  (seq 0 (GetNumberOfParameters t)))).
    { intros delta. apply update_loop. symmetry. apply (contract_size C). }
    subst t' p. unfold increment.
    destruct (s_eqb factor OneValue); rewrite Hloop; reflexivity.
  - rewrite <- (contract_size C t'). fold (Parameters t'). rewrite Hread.
    subst p. rewrite length_map, length_seq. reflexivity.
Qed.

(** C3. An update whose length differs from the parameter count throws the
    size-mismatch error and leaves the object as it was, [m_Parameters] and
    [m_FixedParameters] included, without a call into the variant; an
    update of the right length never throws it. *)
Theorem UpdateTransformParameters_size_mismatch update factor t :
  (length update <> GetNumberOfParameters t ->
     UpdateTransformParameters update factor t
     = Thrown (ParameterUpdateSizeMismatch (length update) (GetNumberOfParameters t)) t [])
  /\ (length update = GetNumberOfParameters t ->
     forall e t' calls, UpdateTransformParameters update factor t <> Thrown e t' calls).
Proof.
  unfold UpdateTransformParameters. split; intros Hlen.
  - destruct (decide (length update <> GetNumberOfParameters t)) as [_|Heq];
      [reflexivity | contradiction].
  - intros e t' calls.
    destruct (decide (length update <> GetNumberOfParameters t)) as [Hne|_];
      [contradiction|].
    destruct (s_eqb factor OneValue);
      match goal with |- context [for_loop ?n ?b ?s] => destruct (for_loop n b s) end;
      discriminate.
Qed.

(** C2, as the code has it. For an update of the right length on a variant
    that keeps the contract, [UpdateTransformParameters(update, factor)]
    completes and leaves [Parameters[k] + update[k]] at every index when the
    factor compares equal to one and [Parameters[k] + update[k] * factor]
    otherwise, and these are one value where multiplying by a factor equal
    to one changes nothing.  Updating with factor 1 and then with factor -1 leaves
    [(Parameters[k] + update[k]) + update[k] * (-1)], which is the original
    vector wherever that arithmetic is exact. *)
Theorem UpdateTransformParameters_adds_update update t :
  VariantContract ->
  length update = GetNumberOfParameters t ->
  (forall factor, exists t',
      UpdateTransformParameters update factor t
      = Completed t' [CallGetParameters; CallSetParameters (m_Parameters t'); CallModified]
      /\ Parameters t' = m_Parameters t'
      /\ length (m_Parameters t') = GetNumberOfParameters t
      /\ (forall k, k < GetNumberOfParameters t ->
           item (m_Parameters t') k
           = item (Parameters t) k
             +! (if s_eqb factor OneValue then item update k
                 else item update k *! factor))
      /\ ((s_eqb factor OneValue = true ->
           forall k, k < GetNumberOfParameters t ->
             item update k *! factor = item update k) ->
          forall k, k < GetNumberOfParameters t ->
            item (m_Parameters t') k
            = item (Parameters t) k +! item update k *! factor))
  /\ (s_eqb OneValue OneValue = true ->
      s_eqb MinusOne OneValue = false ->
      (forall k, k < GetNumberOfParameters t ->
         item (Parameters t) k +! item update k +! item update k *! MinusOne
         = item (Parameters t) k) ->
      exists t1 calls1 t2 calls2,
        UpdateTransformParameters update OneValue t = Completed t1 calls1
        /\ UpdateTransformParameters update MinusOne t1 = Completed t2 calls2
        /\ m_Parameters t2 = Parameters t).
Proof.
  intros C Hlen. split.
  - intros factor.
    destruct (UpdateTransformParameters_completes update factor t C Hlen)
      as (Hrun & Hstored & Hread & _).
    eexists. repeat split.
    + rewrite Hrun, Hstored. reflexivity.
    + rewrite Hstored, Hread. reflexivity.
    + rewrite Hstored, length_map, length_seq. reflexivity.
    + intros k Hk. rewrite Hstored, item_map_seq by exact Hk. reflexivity.
    + intros Hskip k Hk. rewrite Hstored, item_map_seq by exact Hk.
      unfold increment. destruct (s_eqb factor OneValue) eqn:Hfactor.
      * rewrite (Hskip eq_refl k Hk). reflexivity.
      * reflexivity.
  - intros Hone Hminus Hexact.
    destruct (UpdateTransformParameters_completes update OneValue t C Hlen)
      as (Hrun1 & Hstored1 & Hread1 & Hcount1).
    set (p1 := map (fun k => item (Parameters t) k +! increment update OneValue k)
                   (seq 0 (GetNumberOfParameters t))) in *.
    set (t1 := SetParameters p1 (with_Parameters p1 (GetParameters t))) in *.
    assert (Hlen1 : length update = GetNumberOfParameters t1) by congruence.
    destruct (UpdateTransformParameters_completes update MinusOne t1 C Hlen1)
      as (Hrun2 & Hstored2 & _).
    do 4 eexists. split; [exact Hrun1|]. split; [exact Hrun2|].
    rewrite Hstored2, Hcount1, Hread1.
    apply item_ext.
    + rewrite length_map, length_seq. symmetry. apply (contract_size C).
    + intros k Hk. rewrite length_map, length_seq in Hk.
      rewrite item_map_seq by exact Hk.
      subst p1. rewrite item_map_seq by exact Hk.
      unfold increment. rewrite Hone, Hminus. apply Hexact. exact Hk.
Qed.

(** C8. [CopyInParameters(begin, begin)] returns at once: the object is
    left as it was and [SetParameters] is not called. *)
Theorem CopyInParameters_empty_range memory begin t :
  CopyInParameters memory begin begin t = Completed t [].
Proof.
  unfold CopyInParameters.
  destruct (decide (begin = begin)) as [_|Hne]; [reflexivity | contradiction].
Qed.

(** *** Symmetric tensors in variable-length form *)

(** Two nested loops that write a matrix row by row into a flat array. *)
Lemma fill_row_major (n : nat) (f : nat -> nat -> T) (r0 : list T) :
  length r0 = n * n ->
  for_loop n (fun i r =>
    for_loop n (fun j r => <[j + n * i := f i j]> r) r) r0
  = map (fun k => f (k / n) (k mod n)) (seq 0 (n * n)).
Proof.
  intros Hlen.
  pose (P := fun (done : nat) (r : list T) =>
    length r = n * n
    /\ forall k, k < done -> item r k = f (k / n) (k mod n)).
  assert (HP : P (n * n) (for_loop n (fun i r =>
    for_loop n (fun j r => <[j + n * i := f i j]> r) r) r0)).
  { apply (for_loop_invariant (fun i r => P (n * i) r)).
    - split; [exact Hlen | intros k Hk; lia].
    - intros i r Hi Hrows.
      replace (n * S i) with (n * i + n) by lia.
      apply (for_loop_invariant (fun j r => P (n * i + j) r)).
      + replace (n * i + 0) with (n * i) by lia. exact Hrows.
      + intros j r' Hj (Hr' & Hdone). split.
        * rewrite length_insert. exact Hr'.
        * intros k Hk. destruct (decide (k = j + n * i)) as [->|Hne].
          -- rewrite item_insert_eq by nia.
             replace (j + n * i) with (j + i * n) by lia.
             rewrite Nat.Div0.mod_add, Nat.div_add, Nat.mod_small, Nat.div_small by lia.
             reflexivity.
          -- rewrite item_insert_ne by congruence. apply Hdone. lia. }
  destruct HP as (Hr & Hdone).
  apply item_ext.
  - rewrite Hr, length_map, length_seq. reflexivity.
  - intros k Hk. rewrite Hr in Hk.
    rewrite Hdone, item_map_seq by exact Hk. reflexivity.
Qed.

(** *** Loops that can leave an array *)

Lemma for_loop_ext {St : Type} (n : nat) (body body' : nat -> St -> St) (s : St) :
  (forall i acc, i < n -> body i acc = body' i acc) ->
  for_loop n body s = for_loop n body' s.
Proof.
  intros Hbody. induction n as [|n IH]; [reflexivity|].
  rewrite !for_loop_S, IH by (intros; apply Hbody; lia).
  apply Hbody. lia.
Qed.

(** Once outside, always outside. *)
Lemma checked_loop_None {St : Type} (n : nat) (h : nat -> St -> option St) :
  for_loop n (fun j s => s ≫= h j) None = None.
Proof.
  induction n as [|n IH]; [reflexivity|]. rewrite for_loop_S, IH. reflexivity.
Qed.

(** When every step stays inside, the loop does what the unchecked loop
    does. *)
Lemma checked_loop_inside {St : Type} (n : nat) (h : nat -> St -> option St)
    (g : nat -> St -> St) (I : St -> Prop) (s0 : St) :
  I s0 ->
  (forall j s, j < n -> I s -> h j s = Some (g j s) /\ I (g j s)) ->
  for_loop n (fun j s => s ≫= h j) (Some s0) = Some (for_loop n g s0)
  /\ I (for_loop n g s0).
Proof.
  intros H0 Hstep. induction n as [|n IH]; [split; [reflexivity|exact H0]|].
  destruct IH as [Hrun Hkept]; [intros j s Hj; apply Hstep; lia|].
  rewrite !for_loop_S, Hrun. cbn.
  apply Hstep; [lia|exact Hkept].
Qed.

Lemma checked_loop_keeps {St : Type} (n : nat) (h : nat -> St -> option St)
    (I : St -> Prop) (s0 : St) :
  I s0 ->
  (forall j s s', j < n -> I s -> h j s = Some s' -> I s') ->
  forall r, for_loop n (fun j s => s ≫= h j) (Some s0) = Some r -> I r.
Proof.
  intros H0 Hstep. induction n as [|n IH]; intros r.
  - cbn. intros [= <-]. exact H0.
  - rewrite for_loop_S.
    destruct (for_loop n (fun j s => s ≫= h j) (Some s0)) as [a|] eqn:Hrun;
      [|discriminate].
    cbn. intros Hr. apply (Hstep n a r); [lia| |exact Hr].
    apply IH; [intros j s s' Hj; apply Hstep; lia | reflexivity].
Qed.

(** One step that falls outside whatever the state is ends the loop
    outside. *)
Lemma checked_loop_outside {St : Type} (n : nat) (h : nat -> St -> option St)
    (I : St -> Prop) (s0 : St) (j0 : nat) :
  I s0 ->
  (forall j s s', j < n -> I s -> h j s = Some s' -> I s') ->
  j0 < n ->
  (forall s, I s -> h j0 s = None) ->
  for_loop n (fun j s => s ≫= h j) (Some s0) = None.
Proof.
  intros H0 Hstep Hj0 Hfail. induction n as [|n IH]; [lia|].
  rewrite for_loop_S.
  destruct (for_loop n (fun j s => s ≫= h j) (Some s0)) as [a|] eqn:Hrun;
    [|reflexivity].
  cbn. destruct (decide (j0 = n)) as [Heq|Hne].
  - rewrite <- Heq. apply Hfail.
    apply (checked_loop_keeps n h I s0 H0); [|exact Hrun].
    intros j s s' Hj. apply Hstep. lia.
  - assert (Hnone : Some a = None)
      by (apply IH; [intros j s s' Hj; apply Hstep; lia | lia]).
    discriminate Hnone.
Qed.

Lemma checked_loops_nest {St : Type} (n : nat) (h : nat -> nat -> St -> option St)
    (s : option St) :
  for_loop n (fun i s => for_loop n (fun j s => s ≫= h i j) s) s
  = for_loop n (fun i s =>
      s ≫= fun a => for_loop n (fun j s => s ≫= h i j) (Some a)) s.
Proof.
  apply for_loop_ext. intros i [a|] _; [reflexivity|apply checked_loop_None].
Qed.

Lemma checked_loops_inside {St : Type} (n : nat)
    (h : nat -> nat -> St -> option St) (g : nat -> nat -> St -> St)
    (I : St -> Prop) (s0 : St) :
  I s0 ->
  (forall i j s, i < n -> j < n -> I s -> h i j s = Some (g i j s) /\ I (g i j s)) ->
  for_loop n (fun i s => for_loop n (fun j s => s ≫= h i j) s) (Some s0)
  = Some (for_loop n (fun i s => for_loop n (fun j s => g i j s) s) s0).
Proof.
  intros H0 Hstep. rewrite checked_loops_nest.
  refine (proj1 (checked_loop_inside n
            (fun i a => for_loop n (fun j s => s ≫= h i j) (Some a))
            (fun i s => for_loop n (fun j s => g i j s) s) I s0 H0 _)).
  intros i a Hi Ha.
  apply (checked_loop_inside n (h i) (fun j s => g i j s) I a Ha).
  intros j s Hj. apply Hstep; assumption.
Qed.

Lemma checked_loops_outside {St : Type} (n : nat)
    (h : nat -> nat -> St -> option St) (I : St -> Prop) (s0 : St) (i0 j0 : nat) :
  I s0 ->
  (forall i j s s', i < n -> j < n -> I s -> h i j s = Some s' -> I s') ->
  i0 < n -> j0 < n ->
  (forall s, I s -> h i0 j0 s = None) ->
  for_loop n (fun i s => for_loop n (fun j s => s ≫= h i j) s) (Some s0) = None.
Proof.
  intros H0 Hstep Hi0 Hj0 Hfail. rewrite checked_loops_nest.
  apply (checked_loop_outside n
           (fun i a => for_loop n (fun j s => s ≫= h i j) (Some a)) I s0 i0 H0);
    [|exact Hi0|].
  - intros i s s' Hi Hs Hrun.
    apply (checked_loop_keeps n (h i) I s Hs); [|exact Hrun].
    intros j a a' Hj. apply Hstep; assumption.
  - intros s Hs.
    apply (checked_loop_outside n (h i0) I s j0 Hs); [|exact Hj0|exact Hfail].
    intros j a a' Hj. apply Hstep; assumption.
Qed.

(** Where the square of the dimension fits [unsigned int], the index of an
    entry is the one of unbounded arithmetic. *)
Lemma row_major_index_exact (n i j : nat) :
  (Z.of_nat n * Z.of_nat n < 4294967296)%Z -> i < n -> j < n ->
  row_major_index n i j = j + n * i.
Proof.
  intros Hfit Hi Hj. unfold row_major_index, unsigned_int_add, unsigned_int_mul.
  rewrite (Z.mod_small (Z.of_nat n * Z.of_nat i)) by nia.
  rewrite Z2Nat.id by nia.
  rewrite Z.mod_small by nia. lia.
Qed.

(** Where it does not fit, the indices of the entries run through every
    [unsigned int], so also through the size of the array. *)
Lemma row_major_index_reaches (n size : nat) :
  (Z.of_nat size < 4294967296)%Z ->
  (4294967296 <= Z.of_nat n * Z.of_nat n)%Z ->
  exists i j, i < n /\ j < n /\ row_major_index n i j = size.
Proof.
  intros Hsize Hwrap.
  assert (Hn : 0 < n) by nia.
  assert (Hdiv : size = n * (size / n) + size mod n) by apply Nat.div_mod_eq.
  assert (Hmod : size mod n < n) by (apply Nat.mod_upper_bound; lia).
  exists (size / n), (size mod n).
  split; [|split; [exact Hmod|]].
  - apply Nat.Div0.div_lt_upper_bound. nia.
  - revert Hdiv Hmod. generalize (size / n), (size mod n). intros q r Hdiv Hmod.
    unfold row_major_index, unsigned_int_add, unsigned_int_mul.
    rewrite (Z.mod_small (Z.of_nat n * Z.of_nat q)) by nia.
    rewrite Z2Nat.id by nia.
    rewrite Z.mod_small by nia. lia.
Qed.

Lemma unsigned_int_mul_bound (a b : nat) :
  (Z.of_nat (unsigned_int_mul a b) < 4294967296)%Z.
Proof.
  unfold unsigned_int_mul.
  pose proof (Z.mod_pos_bound (Z.of_nat a * Z.of_nat b) 4294967296 ltac:(lia)).
  lia.
Qed.

(** Nested loops that assign the entries of a matrix. *)
Lemma entry_loop (n i : nat) (f : nat -> T) (m : Matrix T) (i' j' : nat) :
  for_loop n (fun j m => set_entry m i j (f j)) m i' j'
  = if (i' =? i) && (j' <? n) then f j' else m i' j'.
Proof.
  induction n as [|n IH]; [rewrite andb_false_r; reflexivity|].
  rewrite for_loop_S. unfold set_entry at 1. rewrite IH.
  destruct (i' =? i); [|reflexivity]. cbn [andb].
  destruct (Nat.eqb_spec j' n) as [Heq|Hne].
  - rewrite Heq, (proj2 (Nat.ltb_lt n (S n))) by lia. reflexivity.
  - destruct (Nat.ltb_spec j' n), (Nat.ltb_spec j' (S n)); try lia; reflexivity.
Qed.

Lemma entry_loops (r n : nat) (f : nat -> nat -> T) (m : Matrix T) (i' j' : nat) :
  for_loop r (fun i m => for_loop n (fun j m => set_entry m i j (f i j)) m) m i' j'
  = if (i' <? r) && (j' <? n) then f i' j' else m i' j'.
Proof.
  induction r as [|r IH]; [reflexivity|].
  rewrite for_loop_S, entry_loop, IH.
  destruct (Nat.eqb_spec i' r) as [Heq|Hne].
  - rewrite Heq, (proj2 (Nat.ltb_lt r (S r))) by lia.
    rewrite (proj2 (Nat.ltb_ge r r)) by lia. cbn [andb].
    destruct (j' <? n); reflexivity.
  - cbn [andb].
    destruct (Nat.ltb_spec i' r), (Nat.ltb_spec i' (S r)); try lia; reflexivity.
Qed.

(** What the variable-length overload does, case by case: the size error
    on a wrong number of components; where the squares of both dimensions
    fit [unsigned int], row by row the entries of
    [Jacobian * tensor * InverseJacobian]; an access outside an array where
    one of them does not fit. *)
Lemma TransformSymmetricSecondRankTensor_VectorPixel_cases t inputTensor point :
  TransformSymmetricSecondRankTensor_VectorPixel t inputTensor point
  = if decide (length inputTensor
               <> unsigned_int_mul VInputDimension VInputDimension)
    then Throws (InputSymmetricTensorSizeMismatch (length inputTensor))
    else if decide ((Z.of_nat VInputDimension * Z.of_nat VInputDimension
                     < 4294967296)%Z
                    /\ (Z.of_nat VOutputDimension * Z.of_nat VOutputDimension
                        < 4294967296)%Z)
    then
      Returns
        (map (fun k =>
                Matrix_times_Matrix VInputDimension
                  (Matrix_times_Matrix VInputDimension
                     (ComputeJacobianWithRespectToPosition t point)
                     (fun i j => item inputTensor (j + VInputDimension * i)))
                  (ComputeInverseJacobianWithRespectToPosition t point)
                  (k / VOutputDimension) (k mod VOutputDimension))
             (seq 0 (VOutputDimension * VOutputDimension)))
    else OutOfRange.
Proof.
  unfold TransformSymmetricSecondRankTensor_VectorPixel.
  destruct (decide (length inputTensor
                    <> unsigned_int_mul VInputDimension VInputDimension))
    as [Hne|Hlen]; [reflexivity|].
  apply dec_stable in Hlen. cbv zeta.
  destruct (decide (Z.of_nat VInputDimension * Z.of_nat VInputDimension
                    < 4294967296)%Z) as [Hin|Hin].
  2: { destruct (row_major_index_reaches VInputDimension (length inputTensor))
         as (i0 & j0 & Hi0 & Hj0 & Hindex);
         [rewrite Hlen; apply unsigned_int_mul_bound|lia|].
       rewrite (checked_loops_outside VInputDimension
                  (fun i j (tensor : Matrix T) =>
                     match inputTensor !! row_major_index VInputDimension i j with
                     | Some x => Some (set_entry tensor i j x)
                     | None => None
                     end)
                  (fun _ => True) _ i0 j0 I (fun _ _ _ _ _ _ _ _ => I) Hi0 Hj0).
       - rewrite decide_False by (intros [Hbad _]; contradiction). reflexivity.
       - intros tensor _. rewrite Hindex, lookup_ge_None_2 by lia. reflexivity. }
  rewrite (checked_loops_inside VInputDimension
             (fun i j (tensor : Matrix T) =>
                match inputTensor !! row_major_index VInputDimension i j with
                | Some x => Some (set_entry tensor i j x)
                | None => None
                end)
             (fun i j tensor =>
                set_entry tensor i j (item inputTensor (j + VInputDimension * i)))
             (fun _ => True) _ I).
  2: { intros i j tensor Hi Hj _. split; [|exact I].
       rewrite row_major_index_exact by assumption.
       rewrite item_lookup; [reflexivity|].
       rewrite Hlen, unsigned_int_mul_exact by exact Hin. nia. }
  cbv beta iota.
  set (tensor := @for_loop (Matrix T) VInputDimension _ (fun _ _ => fresh_heap)).
  set (outTensor := Matrix_times_Matrix VInputDimension _ _).
  destruct (decide (Z.of_nat VOutputDimension * Z.of_nat VOutputDimension
                    < 4294967296)%Z) as [Hout|Hout].
  2: { destruct (row_major_index_reaches VOutputDimension
                   (unsigned_int_mul VOutputDimension VOutputDimension))
         as (i0 & j0 & Hi0 & Hj0 & Hindex);
         [apply unsigned_int_mul_bound|lia|].
       rewrite (checked_loops_outside VOutputDimension
                  (fun i j (outputTensor : list T) =>
                     if decide (row_major_index VOutputDimension i j
                                < length outputTensor)
                     then Some (<[row_major_index VOutputDimension i j
                                  := outTensor i j]> outputTensor)
                     else None)
                  (fun outputTensor =>
                     length outputTensor
                     = unsigned_int_mul VOutputDimension VOutputDimension)
                  _ i0 j0).
       - rewrite decide_False by (intros [_ Hbad]; contradiction). reflexivity.
       - apply repeat_length.
       - intros i j a a' _ _ Ha.
         destruct (decide _); [|discriminate]. intros [= <-].
         rewrite length_insert. exact Ha.
       - exact Hi0.
       - exact Hj0.
       - intros a Ha. rewrite Hindex, Ha. apply decide_False. lia. }
  rewrite (checked_loops_inside VOutputDimension
             (fun i j (outputTensor : list T) =>
                if decide (row_major_index VOutputDimension i j
                           < length outputTensor)
                then Some (<[row_major_index VOutputDimension i j
                             := outTensor i j]> outputTensor)
                else None)
             (fun i j outputTensor =>
                <[j + VOutputDimension * i := outTensor i j]> outputTensor)
             (fun outputTensor =>
                length outputTensor = VOutputDimension * VOutputDimension)).
  2: { rewrite unsigned_int_mul_exact by exact Hout. apply repeat_length. }
  2: { intros i j a Hi Hj Ha.
       rewrite row_major_index_exact by assumption.
       rewrite decide_True by (rewrite Ha; nia).
       split; [reflexivity|]. rewrite length_insert. exact Ha. }
  rewrite decide_True by (split; assumption).
  rewrite unsigned_int_mul_exact by exact Hout.
  rewrite fill_row_major by apply repeat_length.
  f_equal. apply map_ext_in. intros k Hk. apply in_seq in Hk.
  assert (Hpos : 0 < VOutputDimension) by nia.
  subst outTensor. unfold Matrix_times_Matrix.
  apply sum_upto_ext. intros c Hc. f_equal.
  apply sum_upto_ext. intros l Hl. f_equal.
  subst tensor. rewrite entry_loops.
  rewrite (proj2 (Nat.ltb_lt l VInputDimension)) by exact Hl.
  rewrite (proj2 (Nat.ltb_lt c VInputDimension)) by exact Hc.
  reflexivity.
Qed.

(** On the right number of components, and where the squares of both
    dimensions fit [unsigned int], the variable-length overload returns, row
    by row, the entries of [Jacobian * tensor * InverseJacobian]. *)
Lemma TransformSymmetricSecondRankTensor_VectorPixel_conjugates t inputTensor point :
  (Z.of_nat VInputDimension * Z.of_nat VInputDimension < 4294967296)%Z ->
  (Z.of_nat VOutputDimension * Z.of_nat VOutputDimension < 4294967296)%Z ->
  length inputTensor = VInputDimension * VInputDimension ->
  TransformSymmetricSecondRankTensor_VectorPixel t inputTensor point
  = Returns
      (map (fun k =>
              Matrix_times_Matrix VInputDimension
                (Matrix_times_Matrix VInputDimension
                   (ComputeJacobianWithRespectToPosition t point)
                   (fun i j => item inputTensor (j + VInputDimension * i)))
                (ComputeInverseJacobianWithRespectToPosition t point)
                (k / VOutputDimension) (k mod VOutputDimension))
           (seq 0 (VOutputDimension * VOutputDimension))).
Proof.
  intros Hin Hout Hlen.
  rewrite TransformSymmetricSecondRankTensor_VectorPixel_cases.
  rewrite decide_False
    by (rewrite unsigned_int_mul_exact by exact Hin; intros Hne; contradiction).
  rewrite decide_True by (split; assumption). reflexivity.
Qed.

(** *** Diffusion tensors *)

Lemma Reorientation_six_entries inputTensor jacobian :
  exists r0 r1 r2 r3 r4 r5,
    PreservationOfPrincipalDirectionDiffusionTensor3DReorientation inputTensor jacobian
    = [r0; r1; r2; r3; r4; r5].
Proof.
  unfold PreservationOfPrincipalDirectionDiffusionTensor3DReorientation.
  do 6 eexists. reflexivity.
Qed.

(** What the variable-length overload computes on six components: the
    sixth component of its argument is not read, the tensor handed to the
    fixed-length overload ends with what its default constructor left
    there, and the sixth component of the result is what the allocation of
    [SetSize] held. *)
Lemma TransformDiffusionTensor3D_VectorPixel_six t point (a b c d e f : T) :
  TransformDiffusionTensor3D_VectorPixel t [a; b; c; d; e; f] point
  = Returns (take 5 (TransformDiffusionTensor3D t [a; b; c; d; e; fresh_array] point)
             ++ [fresh_heap]).
Proof.
  unfold TransformDiffusionTensor3D_VectorPixel.
  destruct (decide (length [a; b; c; d; e; f] <> 6)) as [Hne|_];
    [exfalso; apply Hne; reflexivity|].
  assert (Hin :
    for_loop 5 (fun i inTensor => <[i := item [a; b; c; d; e; f] i]> inTensor)
             (repeat fresh_array 6)
    = [a; b; c; d; e; fresh_array]) by reflexivity.
  rewrite Hin. unfold TransformDiffusionTensor3D.
  destruct (Reorientation_six_entries [a; b; c; d; e; fresh_array]
              (ComputeInverseJacobianWithRespectToPosition t point))
    as (r0 & r1 & r2 & r3 & r4 & r5 & ->).
  reflexivity.
Qed.

Section ExactArithmetic.
Hypothesis laws : OrderedRingLaws.

Add Ring scalar_ring : (laws_ring laws).



End ExactArithmetic.
End Transform.

Arguments Transform {T} Derived.
Arguments Variant {T} Derived.
Arguments Outcome {T} Derived.
Arguments VariantContract {T} Derived {V}.

(** The sixth component of the variable-length diffusion tensor apart, no
    read-only evaluation depends on what freshly created storage holds. *)
Lemma evaluations_ignore_allocation {T : Type} `{Scalar T}
    (VInputDimension VOutputDimension : nat) {Derived : Type} {V : Variant Derived}
    (svd_inverse : Matrix T -> Matrix T) (a b : T)
    (t : Transform Derived) (v : list T) (point : Point) :
  TransformVector VInputDimension VOutputDimension a t v point
  = TransformVector VInputDimension VOutputDimension b t v point
  /\ TransformCovariantVector VInputDimension VOutputDimension svd_inverse a t v point
     = TransformCovariantVector VInputDimension VOutputDimension svd_inverse b t v point
  /\ TransformVector_VectorPixel VInputDimension VOutputDimension a t v point
     = TransformVector_VectorPixel VInputDimension VOutputDimension b t v point
  /\ TransformCovariantVector_VectorPixel VInputDimension VOutputDimension
       svd_inverse a t v point
     = TransformCovariantVector_VectorPixel VInputDimension VOutputDimension
         svd_inverse b t v point
  /\ TransformSymmetricSecondRankTensor_VectorPixel VInputDimension VOutputDimension
       svd_inverse a t v point
     = TransformSymmetricSecondRankTensor_VectorPixel VInputDimension VOutputDimension
         svd_inverse b t v point.
Proof.
  pose proof (accumulate_rows VOutputDimension VInputDimension
                (fun i j => ComputeJacobianWithRespectToPosition t point i j *! item v j))
    as Hforward.
  pose proof (accumulate_rows VOutputDimension VInputDimension
                (fun i j =>
                   ComputeInverseJacobianWithRespectToPosition svd_inverse t point j i
                   *! item v j))
    as Hinverse.
  cbv zeta in Hforward, Hinverse.
  unfold TransformVector, TransformCovariantVector, TransformVector_VectorPixel,
    TransformCovariantVector_VectorPixel.
  cbv zeta.
  split; [rewrite !Hforward by apply repeat_length; reflexivity|].
  split; [rewrite !Hinverse by apply repeat_length; reflexivity|].
  split; [destruct (decide _); [reflexivity|];
          rewrite !Hforward by apply repeat_length; reflexivity|].
  split; [destruct (decide _); [reflexivity|];
          rewrite !Hinverse by apply repeat_length; reflexivity|].
  rewrite !TransformSymmetricSecondRankTensor_VectorPixel_cases. reflexivity.
Qed.

(** ** A reference variant and reference collaborators

    Concrete objects to run the development on. *)

Section Reference.
Context {T : Type} `{Scalar T}.

(** The base class's own [GetParameters] and [GetNumberOfParameters] (the
    stored vector and its length), a [SetParameters] that stores the vector
    it is handed and counts how often it is called, and the identity as
    Jacobian at every point, as for a translation. *)
Definition counting_Variant : Variant nat := {|
  GetNumberOfParameters t := length (m_Parameters t);
  GetParameters t := t;
  SetParameters p t :=
    {| m_Parameters := p;
       m_FixedParameters := m_FixedParameters t;
       m_Derived := S (m_Derived t) |};
  ComputeJacobianWithRespectToPosition _ _ :=
    fun i j => if i =? j then OneValue else ZeroValue
|}.

(** The pseudo-inverse on the one matrix the reference variant produces:
    the identity is its own inverse. *)
Definition inverse_of_identity (m : Matrix T) : Matrix T := m.

(** Eigen-analysis of a diagonal tensor: the diagonal entries in ascending
    order, each with its coordinate axis as eigenvector. *)
Fixpoint insert_ascending (p : T * nat) (l : list (T * nat)) : list (T * nat) :=
  match l with
  | [] => [p]
  | q :: rest =>
      if s_ltb (fst q) (fst p) then q :: insert_ascending p rest else p :: q :: rest
  end.

Definition diagonal_eigen_analysis (tensor : list T) : list T * Matrix T :=
  let sorted :=
    foldr insert_ascending []
          [(item tensor 0, 0); (item tensor 3, 1); (item tensor 5, 2)] in
  (map fst sorted,
   fun k i => if i =? default 0 (snd <$> sorted !! k) then OneValue else ZeroValue).

(** [Normalize] on vectors of norm one, which it leaves as they are. *)
Definition Normalize_unit (v : list T) : list T := v.
End Reference.

Section ReferenceFacts.
Context {T : Type} `{Scalar T}.

Lemma counting_Variant_contract : VariantContract nat (V := counting_Variant).
Proof. split; intros t; reflexivity. Qed.



End ReferenceFacts.

(** Exact arithmetic keeps the laws of an ordered ring. *)
Lemma exact_laws : OrderedRingLaws (T := Z).
Proof.
  split.
  - split; intros; unfold s_opp; cbn; lia.
  - intros x. unfold s_le. cbn. apply Z.ltb_ge. nia.
  - intros x y. unfold s_le. cbn. rewrite !Z.ltb_ge. lia.
  - intros x y. unfold s_le. cbn. rewrite !Z.ltb_ge. nia.
  - intros x. unfold s_lt, s_le. cbn. rewrite Z.ltb_lt, Z.ltb_ge. lia.
Qed.



(** ** Binary64: skipping the multiplication by one *)

(** Multiplying by 1 is exact in binary64, for every number, infinity and
    not-a-number included. *)
Lemma double_mul_one (x : float) : (x * 1)%float = x.
Proof.
  apply Prim2SF_inj. rewrite mul_spec.
  pose proof (Prim2SF_valid x) as Hvalid.
  change (Prim2SF 1) with (S754_finite false 4503599627370496 (-52)).
  destruct (Prim2SF x) as [s|s| |s m e]; try (destruct s; reflexivity); try reflexivity.
  unfold SF64mul, SFmul.
  cbn [valid_binary] in Hvalid. unfold bounded, canonical_mantissa in Hvalid.
  apply andb_prop in Hvalid. destruct Hvalid as [Hcanon Hbound].
  apply Z.eqb_eq in Hcanon.
  rewrite Pos.mul_comm. cbv [Pos.mul].
  unfold binary_round_aux, shr_fexp.
  cbv [Zdigits2 digits2_pos]. fold digits2_pos.
  set (d := digits2_pos m) in *.
  match goal with
  | |- context [(SpecFloat.fexp prec emax (Z.pos ?p + (e + -52)) - (e + -52))%Z] =>
      replace (SpecFloat.fexp prec emax (Z.pos p + (e + -52)) - (e + -52))%Z with 52%Z
  end.
  2:{ rewrite !Pos2Z.inj_succ. unfold SpecFloat.fexp in *. lia. }
  cbv [shr shr_record_of_loc SpecFloat.iter_pos shr_1 shr_m round_nearest_even
       loc_of_shr_record Zdigits2 orb].
  fold digits2_pos. fold d.
  replace (e + -52 + 52)%Z with e by lia.
  rewrite Hcanon, Z.sub_diag. cbv [shr shr_m].
  rewrite Hbound. destruct s; reflexivity.
Qed.

(** The only binary64 number that compares equal to 1 is 1. *)
Lemma double_eqb_one (f : float) : (f =? 1)%float = true -> f = 1%float.
Proof.
  rewrite FloatAxioms.eqb_spec. intros Heq. apply Prim2SF_inj.
  change (Prim2SF 1) with (S754_finite false 4503599627370496 (-52)) in *.
  unfold SFeqb, SFcompare in Heq.
  destruct (Prim2SF f) as [s|s| |s m e]; try discriminate;
    try (destruct s; discriminate).
  destruct s; [discriminate|].
  destruct (Z.compare_spec e (-52)) as [He|He|He]; try discriminate.
  subst e.
  destruct (Pos.compare_cont Eq m 4503599627370496) eqn:Hm; try discriminate.
  apply Pos.compare_eq in Hm. subst m. reflexivity.
Qed.

Lemma double_skip_multiplication (factor x : float) :
  s_eqb factor OneValue = true -> x *! factor = x.
Proof.
  intros Hone. apply double_eqb_one in Hone. subst factor. apply double_mul_one.
Qed.

(** So in binary64 the update adds [update[k] * factor] for every factor,
    the factor one included. *)
Lemma double_UpdateTransformParameters_adds_scaled_update
    {Derived : Type} {V : Variant Derived}
    (update : list float) (factor : float) (t : Transform Derived) :
  VariantContract Derived ->
  length update = GetNumberOfParameters t ->
  exists t' calls,
    UpdateTransformParameters update factor t = Completed t' calls
    /\ m_Parameters t'
       = map (fun k => item (Parameters t) k +! item update k *! factor)
             (seq 0 (GetNumberOfParameters t)).
Proof.
  intros C Hlen.
  destruct (UpdateTransformParameters_completes update factor t C Hlen)
    as (Hrun & Hstored & _).
  do 2 eexists. split; [exact Hrun|].
  rewrite Hstored. apply map_ext. intros k. unfold increment.
  destruct (s_eqb factor OneValue) eqn:Hone; [|reflexivity].
  rewrite (double_skip_multiplication factor _ Hone). reflexivity.
Qed.

(** ** The theorems on concrete objects *)

(** A three-dimensional transform over binary64 with the reference variant. *)
Definition double_transform (parameters : list float) : Transform nat :=
  mkTransform parameters [] 0.

(** C7 on a vector of two elements handed to a three-dimensional transform. *)
Lemma variable_length_overloads_check_size_witness :
  (Z.of_nat 3 * Z.of_nat 3 < 4294967296)%Z
  /\ exists e,
       TransformVector_VectorPixel (V := counting_Variant) 3 3 0%float
         (double_transform [0; 0; 0]%float) [1; 2]%float [0; 0; 0]%float
       = Throws e.
Proof.
  split; [reflexivity|].
  apply (proj1 (variable_length_overloads_check_size (V := counting_Variant) 3 3
                  inverse_of_identity diagonal_eigen_analysis Normalize_unit
                  0%float 0%float (double_transform [0; 0; 0]%float)
                  [1; 2]%float [0; 0; 0]%float ltac:(reflexivity))).
  cbn. lia.
Defined.

(** C5 and C6 on the vector (1, 2, 3) under the identity Jacobian. *)
Lemma TransformVector_Jacobian_times_vector_witness :
  TransformVector_VectorPixel (V := counting_Variant) 3 3 0%float
    (double_transform [0; 0; 0]%float) [1; 2; 3]%float [0; 0; 0]%float
  = Returns [1; 2; 3]%float.
Proof.
  exact (proj2 (TransformVector_Jacobian_times_vector (V := counting_Variant) 3 3
                  0%float 0%float (double_transform [0; 0; 0]%float)
                  [1; 2; 3]%float [0; 0; 0]%float) eq_refl).
Defined.

Lemma TransformCovariantVector_transposed_inverse_Jacobian_witness :
  TransformCovariantVector_VectorPixel (V := counting_Variant) 3 3
    inverse_of_identity 0%float
    (double_transform [0; 0; 0]%float) [1; 2; 3]%float [0; 0; 0]%float
  = Returns [1; 2; 3]%float.
Proof.
  exact (proj2 (TransformCovariantVector_transposed_inverse_Jacobian
                  (V := counting_Variant) 3 3 inverse_of_identity
                  0%float 0%float (double_transform [0; 0; 0]%float)
                  [1; 2; 3]%float [0; 0; 0]%float) eq_refl).
Defined.

(** C3 on an update of two elements for three parameters. *)
Lemma UpdateTransformParameters_size_mismatch_witness :
  UpdateTransformParameters (V := counting_Variant) [1; 2]%float 1%float
    (double_transform [0; 0; 0]%float)
  = Thrown (ParameterUpdateSizeMismatch 2 3) (double_transform [0; 0; 0]%float) [].
Proof.
  apply (proj1 (UpdateTransformParameters_size_mismatch (V := counting_Variant)
                  [1; 2]%float 1%float (double_transform [0; 0; 0]%float))).
  cbn. lia.
Defined.

(** C2 in binary64 where the arithmetic is exact: 1 + 2 - 2. *)
Lemma UpdateTransformParameters_adds_update_witness :
  exists t1 calls1 t2 calls2,
    UpdateTransformParameters (V := counting_Variant) [2]%float 1%float
      (double_transform [1]%float) = Completed t1 calls1
    /\ UpdateTransformParameters (V := counting_Variant) [2]%float (-1)%float t1
       = Completed t2 calls2
    /\ m_Parameters t2 = [1]%float.
Proof.
  refine (proj2 (UpdateTransformParameters_adds_update (V := counting_Variant)
                   [2]%float (double_transform [1]%float)
                   counting_Variant_contract eq_refl) eq_refl eq_refl _).
  intros k Hk. cbn in Hk.
  destruct k as [|k]; [vm_compute; reflexivity | lia].
Defined.

(** C2 as stated fails in binary64: adding 2^53 to 1 rounds to 2^53, and
    taking 2^53 away again leaves 0. *)
Lemma UpdateTransformParameters_round_trip_rounds :
  let update := [9007199254740992]%float in
  let t := double_transform [1]%float in
  length update = GetNumberOfParameters (Variant := counting_Variant) t
  /\ exists t1 calls1 t2 calls2,
       UpdateTransformParameters (V := counting_Variant) update 1%float t
       = Completed t1 calls1
       /\ UpdateTransformParameters (V := counting_Variant) update (-1)%float t1
          = Completed t2 calls2
       /\ m_Parameters t2 = [0]%float
       /\ m_Parameters t2 <> m_Parameters t.
Proof.
  split; [reflexivity|].
  do 4 eexists.
  split; [vm_compute; reflexivity|].
  split; [vm_compute; reflexivity|].
  split; [reflexivity|].
  cbn. discriminate.
Qed.


(** *** The reorientation in binary64 *)







(** C1 fails on the tensor diag(1, 2, 3) under the identity Jacobian: the
    fixed-length overload returns the tensor as it is, the variable-length
    overload hands on only five components and assigns only five components
    of its result (here with zeros in the two elements it does not assign),
    so the sixth component 3 is lost. *)
Theorem TransformDiffusionTensor3D_VectorPixel_drops_sixth_component :
  let t := double_transform [0; 0; 0]%float in
  let inputTensor := [1; 0; 0; 2; 0; 3]%float in
  let point := [0; 0; 0]%float in
  TransformDiffusionTensor3D (V := counting_Variant) 3 3
    inverse_of_identity diagonal_eigen_analysis Normalize_unit t inputTensor point
  = [1; 0; 0; 2; 0; 3]%float
  /\ TransformDiffusionTensor3D_VectorPixel (V := counting_Variant) 3 3
       inverse_of_identity diagonal_eigen_analysis Normalize_unit
       0%float 0%float t inputTensor point
     = Returns [1; 0; 0; 2; 0; 0]%float.
Proof. split; vm_compute; reflexivity. Qed.

(** C9 fails for the variable-length [TransformDiffusionTensor3D]: whatever
    the variant and its collaborators, two calls on one object with one
    argument return different vectors when the storage they allocate holds
    different values, since the sixth element of the result is not assigned. *)
Theorem TransformDiffusionTensor3D_VectorPixel_depends_on_allocation
    (VInputDimension VOutputDimension : nat) (Derived : Type) (V : Variant Derived)
    (svd_inverse : Matrix float -> Matrix float)
    (ComputeEigenAnalysis : list float -> list float * Matrix float)
    (Normalize : list float -> list float) (fresh_array : float)
    (t : Transform Derived) (point : Point) :
  TransformDiffusionTensor3D_VectorPixel VInputDimension VOutputDimension
    svd_inverse ComputeEigenAnalysis Normalize fresh_array 0%float
    t [1; 0; 0; 2; 0; 3]%float point
  <> TransformDiffusionTensor3D_VectorPixel VInputDimension VOutputDimension
       svd_inverse ComputeEigenAnalysis Normalize fresh_array 1%float
       t [1; 0; 0; 2; 0; 3]%float point.
Proof.
  rewrite !TransformDiffusionTensor3D_VectorPixel_six.
  intros Heq.
  apply (f_equal (fun r => match r with Returns l => l | _ => [] end)) in Heq.
  apply app_inv_head in Heq.
  apply (f_equal (fun l => match l with x :: _ => PrimFloat.eqb x 0 | [] => false end))
    in Heq.
  vm_compute in Heq. discriminate Heq.
Qed.

(** ** The sign predicates of [NumericTraits<Vector<T, D>>]

    A [Vector<T, D>] is the list of its [D] components. *)

Section NumericTraitsVector.
Context {T : Type} `{Scalar T}.

(** The conversion to [double] a component undergoes when it is compared
    with the literal [0.0]. *)
Variable to_double : T -> float.

Definition GetLength (a : list T) : nat := length a.

Definition IsPositive (a : list T) : bool :=
  for_loop (GetLength a)
    (fun i flag => if s_ltb ZeroValue (item a i) then true else flag) false.

Definition IsNonpositive (a : list T) : bool :=
  for_loop (GetLength a)
    (fun i flag =>
       if negb (PrimFloat.ltb 0%float (to_double (item a i))) then true else flag)
    false.

Definition IsNegative (a : list T) : bool :=
  for_loop (GetLength a)
    (fun i flag => if PrimFloat.ltb (to_double (item a i)) 0%float then true else flag)
    false.

Definition IsNonnegative (a : list T) : bool :=
  for_loop (GetLength a)
    (fun i flag =>
       if negb (PrimFloat.ltb (to_double (item a i)) 0%float) then true else flag)
    false.

(** A flag that a loop only ever sets is set in the end exactly when some
    iteration sets it. *)
Lemma flag_loop (n : nat) (test : nat -> bool) :
  for_loop n (fun i flag => if test i then true else flag) false = true
  <-> exists i, i < n /\ test i = true.
Proof.
  induction n as [|n IH].
  - split; [discriminate | intros (i & Hi & _); lia].
  - rewrite for_loop_S. destruct (test n) eqn:Hn.
    + split; [intros _; exists n; split; [lia | exact Hn] | reflexivity].
    + rewrite IH. split; intros (i & Hi & Hti).
      * exists i. split; [lia | exact Hti].
      * exists i. split; [|exact Hti].
        destruct (decide (i = n)) as [->|Hne]; [congruence | lia].
Qed.

(** C10. [IsPositive(a)] holds exactly when some component of [a] is
    greater than [ZeroValue], and [IsNonpositive(a)] exactly when some
    component is not greater than the literal [0.0]; so both hold of a
    vector that has a component of either kind. *)
Theorem IsPositive_IsNonpositive_existential (a : list T) :
  (IsPositive a = true
     <-> exists i, i < length a /\ s_ltb ZeroValue (item a i) = true)
  /\ (IsNonpositive a = true
     <-> exists i, i < length a
                   /\ PrimFloat.ltb 0%float (to_double (item a i)) = false)
  /\ (forall i j, i < length a -> j < length a ->
        s_ltb ZeroValue (item a i) = true ->
        PrimFloat.ltb 0%float (to_double (item a j)) = false ->
        IsPositive a = true /\ IsNonpositive a = true).
Proof.
  assert (Hpos : IsPositive a = true
     <-> exists i, i < length a /\ s_ltb ZeroValue (item a i) = true).
  { apply (flag_loop (length a) (fun i => s_ltb ZeroValue (item a i))). }
  assert (Hnonpos : IsNonpositive a = true
     <-> exists i, i < length a
                   /\ PrimFloat.ltb 0%float (to_double (item a i)) = false).
  { unfold IsNonpositive, GetLength.
    rewrite (flag_loop (length a)
               (fun i => negb (PrimFloat.ltb 0%float (to_double (item a i))))).
    split; intros (i & Hi & Hti); exists i; (split; [exact Hi|]).
    - apply negb_true_iff. exact Hti.
    - apply negb_true_iff. exact Hti. }
  split; [exact Hpos|]. split; [exact Hnonpos|].
  intros i j Hi Hj Hpi Hnj. split.
  - apply Hpos. exists i. auto.
  - apply Hnonpos. exists j. auto.
Qed.
End NumericTraitsVector.

(** C10 on the vector (1, -1) of doubles: positive and non-positive at once,
    so neither predicate is the negation of the other. *)
Lemma IsPositive_IsNonpositive_existential_witness :
  IsPositive [1; -1]%float = true
  /\ IsNonpositive (fun x : float => x) [1; -1]%float = true.
Proof.
  refine (proj2 (proj2 (IsPositive_IsNonpositive_existential
                          (fun x : float => x) [1; -1]%float)) 0 1 _ _ _ _).
  - cbn. lia.
  - cbn. lia.
  - reflexivity.
  - reflexivity.
Defined.

(** * Further properties of the transform core

    What follows covers more of [itkTransform.hxx] and of
    [itkNumericTraitsVectorPixel.h] with the definitions above. *)

(** ** Finite sums in exact arithmetic *)

Section ExactSums.
Context {T : Type} `{Scalar T}.

Hypothesis ring_laws : ring_theory ZeroValue OneValue s_add s_mul s_sub s_opp eq.

Add Ring exact_sums_ring : ring_laws.

Lemma sum_upto_add (n : nat) (f g : nat -> T) :
  sum_upto n (fun k => f k +! g k) = sum_upto n f +! sum_upto n g.
Proof.
  induction n as [|n IH]; cbn [sum_upto]; [ring|]. rewrite IH. ring.
Qed.

Lemma sum_upto_scale (n : nat) (a : T) (f : nat -> T) :
  sum_upto n (fun k => a *! f k) = a *! sum_upto n f.
Proof.
  induction n as [|n IH]; cbn [sum_upto]; [ring|]. rewrite IH. ring.
Qed.

Lemma sum_upto_zero (n : nat) : sum_upto n (fun _ => ZeroValue) = ZeroValue.
Proof.
  induction n as [|n IH]; cbn [sum_upto]; [reflexivity|]. rewrite IH. ring.
Qed.

Lemma sum_upto_swap (n m : nat) (f : nat -> nat -> T) :
  sum_upto n (fun i => sum_upto m (fun j => f i j))
  = sum_upto m (fun j => sum_upto n (fun i => f i j)).
Proof.
  induction n as [|n IH]; cbn [sum_upto].
  - symmetry. apply sum_upto_zero.
  - rewrite IH, <- sum_upto_add. reflexivity.
Qed.

(** A sum against the Kronecker delta picks one term. *)
Lemma sum_upto_delta (n i : nat) (f : nat -> T) :
  i < n ->
  sum_upto n (fun k => (if i =? k then OneValue else ZeroValue) *! f k) = f i.
Proof.
  intros Hi. induction n as [|n IH]; [lia|].
  cbn [sum_upto]. destruct (decide (i = n)) as [->|Hne].
  - rewrite Nat.eqb_refl.
    rewrite (sum_upto_ext n _ (fun _ => ZeroValue)).
    + rewrite sum_upto_zero. ring.
    + intros k Hk. destruct (Nat.eqb_spec n k); [lia|ring].
  - rewrite IH by lia. destruct (Nat.eqb_spec i n); [contradiction|ring].
Qed.

Lemma sum_upto_delta_r (n i : nat) (f : nat -> T) :
  i < n ->
  sum_upto n (fun k => f k *! (if k =? i then OneValue else ZeroValue)) = f i.
Proof.
  intros Hi. rewrite <- (sum_upto_delta n i f Hi).
  apply sum_upto_ext. intros k _. rewrite (Nat.eqb_sym k i). ring.
Qed.
End ExactSums.

(** ** Transport of vectors: sizes, linearity and the pairing *)

Section TransportProperties.
Context {T : Type} `{Scalar T}.
Variables VInputDimension VOutputDimension : nat.
Context {Derived : Type} {V : @Variant T Derived}.
Variable svd_inverse : Matrix T -> Matrix T.
Variable ComputeEigenAnalysis : list T -> list T * Matrix T.
Variable Normalize : list T -> list T.
Variables fresh_array fresh_heap : T.

Local Abbreviation Jacobian := ComputeJacobianWithRespectToPosition.
Local Abbreviation InverseJacobian :=
  (ComputeInverseJacobianWithRespectToPosition svd_inverse).
Local Abbreviation TV := (TransformVector VInputDimension VOutputDimension fresh_array).
Local Abbreviation TCV :=
  (TransformCovariantVector VInputDimension VOutputDimension svd_inverse fresh_array).

Lemma length_for_loop {A : Type} (n : nat) (body : nat -> list A -> list A)
    (a : list A) :
  (forall i r, i < n -> length (body i r) = length r) ->
  length (for_loop n body a) = length a.
Proof.
  intros Hbody.
  apply (for_loop_invariant (fun _ r => length r = length a)); [reflexivity|].
  intros i r Hi Hr. rewrite Hbody by exact Hi. exact Hr.
Qed.

Lemma TransformVector_item t v point i :
  i < VOutputDimension ->
  item (TV t v point) i
  = sum_upto VInputDimension (fun j => Jacobian t point i j *! item v j).
Proof.
  intros Hi. unfold TransformVector.
  rewrite (accumulate_rows VOutputDimension VInputDimension
             (fun i j => Jacobian t point i j *! item v j))
    by apply repeat_length.
  apply (item_map_seq (fun i => sum_upto VInputDimension
                                  (fun j => Jacobian t point i j *! item v j))).
  exact Hi.
Qed.

Lemma TransformCovariantVector_item t v point i :
  i < VOutputDimension ->
  item (TCV t v point) i
  = sum_upto VInputDimension (fun j => InverseJacobian t point j i *! item v j).
Proof.
  intros Hi. unfold TransformCovariantVector.
  rewrite (accumulate_rows VOutputDimension VInputDimension
             (fun i j => InverseJacobian t point j i *! item v j))
    by apply repeat_length.
  apply (item_map_seq (fun i => sum_upto VInputDimension
                                  (fun j => InverseJacobian t point j i *! item v j))).
  exact Hi.
Qed.

(** X1. Every transport returns as many components as its output type has:
    [VOutputDimension] for vectors and covariant vectors, whatever the length
    of the argument of the fixed-length overloads, six for diffusion tensors,
    and for flattened symmetric tensors the size [SetSize] is given, the
    [unsigned int] product [VOutputDimension * VOutputDimension]: the
    overload returns only where that product does not wrap, so the size is
    [VOutputDimension] squared. *)
Theorem transport_result_sizes t v point :
  length (TV t v point) = VOutputDimension
  /\ length (TCV t v point) = VOutputDimension
  /\ length (TransformDiffusionTensor3D VInputDimension VOutputDimension
               svd_inverse ComputeEigenAnalysis Normalize t v point) = 6
  /\ (forall r,
        TransformVector_VectorPixel VInputDimension VOutputDimension fresh_heap
          t v point = Returns r -> length r = VOutputDimension)
  /\ (forall r,
        TransformCovariantVector_VectorPixel VInputDimension VOutputDimension
          svd_inverse fresh_heap t v point = Returns r ->
        length r = VOutputDimension)
  /\ (forall r,
        TransformDiffusionTensor3D_VectorPixel VInputDimension VOutputDimension
          svd_inverse ComputeEigenAnalysis Normalize fresh_array fresh_heap
          t v point = Returns r -> length r = 6)
  /\ (forall r,
        TransformSymmetricSecondRankTensor_VectorPixel VInputDimension
          VOutputDimension svd_inverse fresh_heap t v point = Returns r ->
        length r = unsigned_int_mul VOutputDimension VOutputDimension
        /\ (Z.of_nat VOutputDimension * Z.of_nat VOutputDimension < 4294967296)%Z
        /\ length r = VOutputDimension * VOutputDimension).
Proof.
  assert (Hrows : forall (fresh : T) (term : nat -> nat -> T),
    length (for_loop VOutputDimension (fun i result =>
              let result := <[i := ZeroValue]> result in
              for_loop VInputDimension (fun j result =>
                <[i := item result i +! term i j]> result) result)
              (repeat fresh VOutputDimension)) = VOutputDimension).
  { intros fresh term.
    rewrite (accumulate_rows VOutputDimension VInputDimension term)
      by apply repeat_length.
    rewrite length_map, length_seq. reflexivity. }
  split; [|split; [|split; [reflexivity|split; [|split; [|split; [|]]]]]].
  - apply (Hrows fresh_array (fun i j => Jacobian t point i j *! item v j)).
  - apply (Hrows fresh_array (fun i j => InverseJacobian t point j i *! item v j)).
  - intros r. unfold TransformVector_VectorPixel.
    destruct (decide _); [discriminate|]. intros [= <-].
    apply (Hrows fresh_heap (fun i j => Jacobian t point i j *! item v j)).
  - intros r. unfold TransformCovariantVector_VectorPixel.
    destruct (decide _); [discriminate|]. intros [= <-].
    apply (Hrows fresh_heap (fun i j => InverseJacobian t point j i *! item v j)).
  - intros r. unfold TransformDiffusionTensor3D_VectorPixel.
    destruct (decide _); [discriminate|]. intros [= <-].
    rewrite length_for_loop; [reflexivity|].
    intros i a _. apply length_insert.
  - intros r. rewrite TransformSymmetricSecondRankTensor_VectorPixel_cases.
    destruct (decide _); [discriminate|].
    destruct (decide _) as [[_ Hout]|]; [|discriminate]. intros [= <-].
    rewrite length_map, length_seq, unsigned_int_mul_exact by exact Hout.
    auto.
Qed.

Section Exact.
Hypothesis ring_laws : ring_theory ZeroValue OneValue s_add s_mul s_sub s_opp eq.

Add Ring transport_ring : ring_laws.

(** X2. In exact arithmetic [TransformVector] is linear in the vector: if
    [u = a * v + w] component by component then the same holds of the
    results, at every point. *)
Theorem TransformVector_linear t (a : T) (u v w : list T) point :
  (forall j, j < VInputDimension -> item u j = a *! item v j +! item w j) ->
  forall i, i < VOutputDimension ->
    item (TV t u point) i = a *! item (TV t v point) i +! item (TV t w point) i.
Proof.
  intros Hu i Hi. rewrite !TransformVector_item by exact Hi.
  rewrite <- (sum_upto_scale ring_laws), <- (sum_upto_add ring_laws).
  apply sum_upto_ext. intros j Hj. rewrite (Hu j Hj). ring.
Qed.

(** X3. In exact arithmetic [TransformCovariantVector] is linear in the
    covariant vector. *)
Theorem TransformCovariantVector_linear t (a : T) (u v w : list T) point :
  (forall j, j < VInputDimension -> item u j = a *! item v j +! item w j) ->
  forall i, i < VOutputDimension ->
    item (TCV t u point) i = a *! item (TCV t v point) i +! item (TCV t w point) i.
Proof.
  intros Hu i Hi. rewrite !TransformCovariantVector_item by exact Hi.
  rewrite <- (sum_upto_scale ring_laws), <- (sum_upto_add ring_laws).
  apply sum_upto_ext. intros j Hj. rewrite (Hu j Hj). ring.
Qed.

(** X4. Where the inverse Jacobian is a left inverse of the Jacobian, the
    pairing of a covariant vector with a vector is the same before and after
    the transport: the dot product of [TransformCovariantVector(w, p)] with
    [TransformVector(v, p)] is the dot product of [w] with [v]. *)
Theorem covariant_pairing_preserved t (v w : list T) point :
  (forall j k, j < VInputDimension -> k < VInputDimension ->
     sum_upto VOutputDimension
       (fun i => InverseJacobian t point j i *! Jacobian t point i k)
     = if j =? k then OneValue else ZeroValue) ->
  sum_upto VOutputDimension
    (fun i => item (TCV t w point) i *! item (TV t v point) i)
  = sum_upto VInputDimension (fun j => item w j *! item v j).
Proof.
  intros Hinverse.
  transitivity
    (sum_upto VOutputDimension (fun i =>
       sum_upto VInputDimension (fun j =>
         sum_upto VInputDimension (fun k =>
           item w j *! item v k
           *! (InverseJacobian t point j i *! Jacobian t point i k))))).
  { apply sum_upto_ext. intros i Hi.
    rewrite TransformCovariantVector_item, TransformVector_item by exact Hi.
    rewrite (ring_laws.(Rmul_comm) (sum_upto _ _)).
    rewrite <- (sum_upto_scale ring_laws).
    apply sum_upto_ext. intros j _.
    rewrite (ring_laws.(Rmul_comm) (sum_upto _ _)).
    rewrite <- (sum_upto_scale ring_laws).
    apply sum_upto_ext. intros k _. ring. }
  rewrite (sum_upto_swap ring_laws).
  apply sum_upto_ext. intros j Hj.
  rewrite (sum_upto_swap ring_laws).
  transitivity
    (sum_upto VInputDimension (fun k =>
       item w j *! item v k *! (if k =? j then OneValue else ZeroValue))).
  { apply sum_upto_ext. intros k Hk.
    rewrite (sum_upto_scale ring_laws), (Hinverse j k Hj Hk), (Nat.eqb_sym k j).
    reflexivity. }
  apply (sum_upto_delta_r ring_laws VInputDimension j
           (fun k => item w j *! item v k) Hj).
Qed.
End Exact.
End TransportProperties.

(** ** The update and copy-in protocol beyond the size check *)

Section ProtocolProperties.
Context {T : Type} `{Scalar T}.
Context {Derived : Type} {V : @Variant T Derived}.

Lemma item_app_l (a b : list T) (i : nat) :
  i < length a -> item (a ++ b) i = item a i.
Proof. intros Hi. unfold item. rewrite lookup_app_l by exact Hi. reflexivity. Qed.

Lemma item_app_r (a b : list T) (i : nat) :
  length a <= i -> item (a ++ b) i = item b (i - length a).
Proof. intros Hi. unfold item. rewrite lookup_app_r by exact Hi. reflexivity. Qed.

Lemma item_drop (n : nat) (a : list T) (i : nat) :
  item (drop n a) i = item a (n + i).
Proof. unfold item. rewrite lookup_drop. reflexivity. Qed.

Lemma item_take (n : nat) (a : list T) (i : nat) :
  i < n -> item (take n a) i = item a i.
Proof.
  intros Hi. unfold item. rewrite lookup_take, decide_True by exact Hi. reflexivity.
Qed.

(** The update loop on a vector of any length: it stops being defined at the
    first index outside the vector. *)
Lemma update_loop_bounds (n : nat) (delta : nat -> T) (p : list T) :
  for_loop n (fun k a => a ≫= add_at k (delta k)) (Some p)
  = if decide (n <= length p)
    then Some (map (fun k => item p k +! delta k) (seq 0 n) ++ drop n p)
    else None.
Proof.
  induction n as [|n IH].
  - cbn. rewrite decide_True by lia. rewrite drop_0. reflexivity.
  - rewrite for_loop_S, IH.
    destruct (decide (S n <= length p)) as [Hin|Hout].
    + rewrite decide_True by lia. cbn [mbind option_bind]. unfold add_at.
      assert (Hlen : length (map (fun k => item p k +! delta k) (seq 0 n)) = n).
      { rewrite length_map, length_seq. reflexivity. }
      rewrite lookup_app_r by lia. rewrite Hlen, Nat.sub_diag, lookup_drop, Nat.add_0_r.
      rewrite (item_lookup p n) by lia.
      rewrite insert_app_r_alt by lia. rewrite Hlen, Nat.sub_diag.
      rewrite (drop_S p (item p n) n) by (apply item_lookup; lia).
      cbn [insert list_insert]. rewrite seq_S, map_app. cbn [map].
      rewrite <- app_assoc. reflexivity.
    + destruct (decide (n <= length p)) as [Hn|Hn]; [|reflexivity].
      cbn [mbind option_bind]. unfold add_at.
      rewrite lookup_ge_None_2; [reflexivity|].
      rewrite length_app, length_map, length_seq, length_drop. lia.
Qed.

(** X5. [UpdateTransformParameters] reads and writes exactly the first
    [NumberOfParameters] elements of the vector [GetParameters] refreshes and
    checks no bound: for an update of the right length it runs outside the
    array exactly when that vector is shorter than the parameter count, and
    otherwise leaves the elements beyond the count as they are. *)
Theorem UpdateTransformParameters_bounds (update : list T) (factor : T)
    (t : Transform Derived) :
  length update = GetNumberOfParameters t ->
  (UpdateTransformParameters update factor t = OutOfBounds
     <-> length (Parameters t) < GetNumberOfParameters t)
  /\ (GetNumberOfParameters t <= length (Parameters t) ->
      exists p,
        UpdateTransformParameters update factor t
        = Completed (SetParameters p (with_Parameters p (GetParameters t)))
                    [CallGetParameters; CallSetParameters p; CallModified]
        /\ length p = length (Parameters t)
        /\ (forall k, k < GetNumberOfParameters t ->
              item p k = item (Parameters t) k +! increment update factor k)
        /\ (forall k, GetNumberOfParameters t <= k ->
              item p k = item (Parameters t) k)).
Proof.
  intros Hlen.
  assert (Hrun : UpdateTransformParameters update factor t
    = match
        (if decide (GetNumberOfParameters t <= length (Parameters t))
         then Some (map (fun k => item (Parameters t) k +! increment update factor k)
                        (seq 0 (GetNumberOfParameters t))
                    ++ drop (GetNumberOfParameters t) (Parameters t))
         else None)
      with
      | Some p =>
          Completed (SetParameters p (with_Parameters p (GetParameters t)))
                    [CallGetParameters; CallSetParameters p; CallModified]
      | None => OutOfBounds
      end).
  { unfold UpdateTransformParameters.
    destruct (decide (length update <> GetNumberOfParameters t)); [contradiction|].
    unfold increment, Parameters.
    destruct (s_eqb factor OneValue); rewrite update_loop_bounds; reflexivity. }
  rewrite Hrun. split.
  - destruct (decide (GetNumberOfParameters t <= length (Parameters t)));
      split; try discriminate; try lia; reflexivity.
  - intros Hfits. rewrite decide_True by exact Hfits.
    eexists. split; [reflexivity|].
    assert (Hprefix : length (map (fun k => item (Parameters t) k
                                             +! increment update factor k)
                                  (seq 0 (GetNumberOfParameters t)))
                      = GetNumberOfParameters t).
    { rewrite length_map, length_seq. reflexivity. }
    split; [|split].
    + rewrite length_app, Hprefix, length_drop. lia.
    + intros k Hk. rewrite item_app_l by (rewrite Hprefix; exact Hk).
      apply (item_map_seq (fun k => item (Parameters t) k +! increment update factor k)).
      exact Hk.
    + intros k Hk. rewrite item_app_r by (rewrite Hprefix; exact Hk).
      rewrite Hprefix, item_drop. f_equal. lia.
Qed.

(** X6. Two updates in a row add up in call order: on a variant that keeps
    the contract, each element ends as the original plus the first increment
    plus the second, and the parameter count is kept. *)
Theorem UpdateTransformParameters_twice (update1 update2 : list T)
    (factor1 factor2 : T) (t : Transform Derived) :
  VariantContract Derived ->
  length update1 = GetNumberOfParameters t ->
  length update2 = GetNumberOfParameters t ->
  exists t1 calls1 t2 calls2,
    UpdateTransformParameters update1 factor1 t = Completed t1 calls1
    /\ UpdateTransformParameters update2 factor2 t1 = Completed t2 calls2
    /\ GetNumberOfParameters t2 = GetNumberOfParameters t
    /\ length (m_Parameters t2) = GetNumberOfParameters t
    /\ forall k, k < GetNumberOfParameters t ->
         item (m_Parameters t2) k
         = item (Parameters t) k +! increment update1 factor1 k
           +! increment update2 factor2 k.
Proof.
  intros C Hlen1 Hlen2.
  destruct (UpdateTransformParameters_completes update1 factor1 t C Hlen1)
    as (Hrun1 & _ & Hread1 & Hcount1).
  set (p1 := map (fun k => item (Parameters t) k +! increment update1 factor1 k)
                 (seq 0 (GetNumberOfParameters t))) in *.
  set (t1 := SetParameters p1 (with_Parameters p1 (GetParameters t))) in *.
  assert (Hlen2' : length update2 = GetNumberOfParameters t1) by congruence.
  destruct (UpdateTransformParameters_completes update2 factor2 t1 C Hlen2')
    as (Hrun2 & Hstored2 & _ & Hcount2).
  do 4 eexists. split; [exact Hrun1|]. split; [exact Hrun2|].
  split; [congruence|].
  rewrite Hstored2, Hcount1, Hread1. split.
  - rewrite length_map, length_seq. reflexivity.
  - intros k Hk.
    rewrite (item_map_seq (fun k => item p1 k +! increment update2 factor2 k)) by exact Hk.
    subst p1.
    rewrite (item_map_seq (fun k => item (Parameters t) k +! increment update1 factor1 k))
      by exact Hk.
    reflexivity.
Qed.

(** X7. [CopyInParameters] over a non-empty range of [n] elements that lies
    in an array and fits the parameter vector, other than a range starting
    at the vector's own first element: the first [n] parameters become the
    elements of the range, the others are kept, and the whole vector is
    submitted once to [SetParameters]. *)
Theorem CopyInParameters_copies_range (memory : nat -> list T)
    (begin end_ : Pointer) (t : Transform Derived) :
  let source :=
    match block begin with
    | ParametersBlock => m_Parameters t
    | ForeignBlock id => memory id
    end in
  let n := offset end_ - offset begin in
  begin <> mkPointer ParametersBlock 0 ->
  block begin = block end_ ->
  offset begin < offset end_ ->
  offset end_ <= length source ->
  n <= length (m_Parameters t) ->
  exists p,
    CopyInParameters memory begin end_ t
    = Completed (SetParameters p (with_Parameters p t)) [CallSetParameters p]
    /\ length p = length (m_Parameters t)
    /\ (forall i, i < n -> item p i = item source (offset begin + i))
    /\ (forall i, n <= i -> item p i = item (m_Parameters t) i).
Proof.
  intros source n Hforeign Hblock Horder Hsource Hfits.
  assert (Hne : begin <> end_).
  { intros ->. lia. }
  exists (take n (drop (offset begin) source) ++ drop n (m_Parameters t)).
  assert (Htake : length (take n (drop (offset begin) source)) = n).
  { rewrite length_take, length_drop. subst n. lia. }
  split; [|split; [|split]].
  - unfold CopyInParameters, copy_into_Parameters.
    rewrite decide_False by exact Hne.
    rewrite decide_True by exact Hforeign.
    fold source. fold n.
    rewrite decide_True; [reflexivity|].
    repeat split; try assumption; lia.
  - rewrite length_app, Htake, length_drop. lia.
  - intros i Hi. rewrite item_app_l by (rewrite Htake; exact Hi).
    rewrite item_take by exact Hi. apply item_drop.
  - intros i Hi. rewrite item_app_r by (rewrite Htake; exact Hi).
    rewrite Htake, item_drop. f_equal. lia.
Qed.

(** X8. The self-aliasing guard of [CopyInParameters]: a non-empty range
    that starts at the vector's own first element is not copied, whatever
    its end; the stored vector is submitted to [SetParameters] as it is. *)
Theorem CopyInParameters_onto_self (memory : nat -> list T) (end_ : Pointer)
    (t : Transform Derived) :
  end_ <> mkPointer ParametersBlock 0 ->
  CopyInParameters memory (mkPointer ParametersBlock 0) end_ t
  = Completed (SetParameters (m_Parameters t) t) [CallSetParameters (m_Parameters t)].
Proof.
  intros Hne. unfold CopyInParameters.
  rewrite decide_False by congruence.
  rewrite decide_False by (intros Hbad; apply Hbad; reflexivity).
  destruct t as [p f d]. reflexivity.
Qed.

(** X9. [CopyInParameters] checks no bound: a range with more elements than
    the parameter vector has, or one that reaches past the end of the array
    it lies in, is copied outside an array. *)
Theorem CopyInParameters_overflow (memory : nat -> list T)
    (begin end_ : Pointer) (t : Transform Derived) :
  let source :=
    match block begin with
    | ParametersBlock => m_Parameters t
    | ForeignBlock id => memory id
    end in
  begin <> mkPointer ParametersBlock 0 ->
  begin <> end_ ->
  length (m_Parameters t) < offset end_ - offset begin
    \/ length source < offset end_ ->
  CopyInParameters memory begin end_ t = OutOfBounds.
Proof.
  intros source Hforeign Hne Hover.
  unfold CopyInParameters, copy_into_Parameters.
  rewrite decide_False by exact Hne.
  rewrite decide_True by exact Hforeign.
  fold source.
  rewrite decide_False; [reflexivity|].
  intros (_ & _ & Hsource & Hfits). lia.
Qed.
End ProtocolProperties.

(** ** Tensors: what enters the reorientation and the flattened conjugation *)

Section TensorProperties.
Context {T : Type} `{Scalar T}.
Variables VInputDimension VOutputDimension : nat.
Context {Derived : Type} {V : @Variant T Derived}.
Variable svd_inverse : Matrix T -> Matrix T.
Variable ComputeEigenAnalysis : list T -> list T * Matrix T.
Variable Normalize : list T -> list T.
Variables fresh_array fresh_heap : T.

Local Abbreviation Reorientation :=
  (PreservationOfPrincipalDirectionDiffusionTensor3DReorientation
     VInputDimension VOutputDimension ComputeEigenAnalysis Normalize).
Local Abbreviation Symmetric_VectorPixel :=
  (TransformSymmetricSecondRankTensor_VectorPixel VInputDimension VOutputDimension
     svd_inverse fresh_heap).

Lemma Matrix_times_Vector_ext (m m' : Matrix T) (v : list T) :
  (forall r c, r < 3 -> c < 3 -> m r c = m' r c) ->
  Matrix_times_Vector m v = Matrix_times_Vector m' v.
Proof.
  intros Hm. unfold Matrix_times_Vector.
  apply map_ext_in. intros r Hr. apply in_seq in Hr.
  apply sum_upto_ext. intros c Hc. rewrite Hm by lia. reflexivity.
Qed.

(** X10. Only the upper left 3x3 block of the inverse Jacobian, as far as
    the dimensions of the transform reach, enters the reorientation of a
    diffusion tensor: two matrices that agree there give the same tensor.
    Beyond the dimensions of the transform the block is the identity. *)
Theorem Reorientation_reads_3x3_block (inputTensor : list T)
    (jacobian jacobian' : Matrix T) :
  (forall i j, i < 3 -> j < 3 -> i < VInputDimension -> j < VOutputDimension ->
     jacobian i j = jacobian' i j) ->
  Reorientation inputTensor jacobian = Reorientation inputTensor jacobian'.
Proof.
  intros Hblock.
  unfold PreservationOfPrincipalDirectionDiffusionTensor3DReorientation,
    rotated_matrix.
  destruct (ComputeEigenAnalysis inputTensor) as [eigenValues eigenVectors].
  set (matrix := fun i j : nat =>
         if (i <? VInputDimension) && (j <? VOutputDimension) && (i <? 3) && (j <? 3)
         then jacobian i j
         else if i =? j then OneValue else ZeroValue).
  set (matrix' := fun i j : nat =>
         if (i <? VInputDimension) && (j <? VOutputDimension) && (i <? 3) && (j <? 3)
         then jacobian' i j
         else if i =? j then OneValue else ZeroValue).
  assert (Hmatrix : forall v, Matrix_times_Vector matrix v = Matrix_times_Vector matrix' v).
  { intros v. apply Matrix_times_Vector_ext. intros r c Hr Hc. subst matrix matrix'.
    cbv beta.
    destruct (r <? VInputDimension) eqn:Hri; [|reflexivity].
    destruct (c <? VOutputDimension) eqn:Hco; [|reflexivity].
    apply Nat.ltb_lt in Hri, Hco.
    destruct ((true && true && (r <? 3) && (c <? 3))%bool); [|reflexivity].
    apply Hblock; assumption. }
  rewrite !Hmatrix. reflexivity.
Qed.

(** X11. The variable-length [TransformDiffusionTensor3D] does not read the
    sixth component of its argument: two tensors that differ only there are
    mapped to the same vector, whose sixth element is what the allocation
    held. *)
Theorem TransformDiffusionTensor3D_VectorPixel_ignores_sixth
    (t : Transform Derived) point (a b c d e f f' : T) :
  TransformDiffusionTensor3D_VectorPixel VInputDimension VOutputDimension
    svd_inverse ComputeEigenAnalysis Normalize fresh_array fresh_heap
    t [a; b; c; d; e; f] point
  = TransformDiffusionTensor3D_VectorPixel VInputDimension VOutputDimension
      svd_inverse ComputeEigenAnalysis Normalize fresh_array fresh_heap
      t [a; b; c; d; e; f'] point
  /\ exists r0 r1 r2 r3 r4,
       TransformDiffusionTensor3D_VectorPixel VInputDimension VOutputDimension
         svd_inverse ComputeEigenAnalysis Normalize fresh_array fresh_heap
         t [a; b; c; d; e; f] point
       = Returns [r0; r1; r2; r3; r4; fresh_heap].
Proof.
  rewrite !TransformDiffusionTensor3D_VectorPixel_six. split; [reflexivity|].
  unfold TransformDiffusionTensor3D.
  destruct (Reorientation_six_entries VInputDimension VOutputDimension
              ComputeEigenAnalysis Normalize [a; b; c; d; e; fresh_array]
              (ComputeInverseJacobianWithRespectToPosition svd_inverse t point))
    as (r0 & r1 & r2 & r3 & r4 & r5 & ->).
  exists r0, r1, r2, r3, r4. reflexivity.
Qed.

(** X12. On [VInputDimension] squared components (a square that fits
    [unsigned int]) the flattened symmetric tensor overload does one of two
    things.  Where [VOutputDimension] squared fits [unsigned int] too, it
    returns that many components: element [j + VOutputDimension * i] is
    entry [(i, j)] of [Jacobian * tensor * InverseJacobian], the tensor being
    read row by row and both products running over [VInputDimension] terms.
    Where it does not fit, [SetSize] is given the wrapped product and the
    loop that fills the result writes outside the array. *)
Theorem TransformSymmetricSecondRankTensor_VectorPixel_entries
    (t : Transform Derived) (inputTensor : list T) point :
  (Z.of_nat VInputDimension * Z.of_nat VInputDimension < 4294967296)%Z ->
  length inputTensor = VInputDimension * VInputDimension ->
  ((Z.of_nat VOutputDimension * Z.of_nat VOutputDimension < 4294967296)%Z ->
   exists r,
     Symmetric_VectorPixel t inputTensor point = Returns r
     /\ length r = VOutputDimension * VOutputDimension
     /\ forall i j, i < VOutputDimension -> j < VOutputDimension ->
          item r (j + VOutputDimension * i)
          = sum_upto VInputDimension (fun k =>
              sum_upto VInputDimension (fun l =>
                ComputeJacobianWithRespectToPosition t point i l
                *! item inputTensor (k + VInputDimension * l))
              *! ComputeInverseJacobianWithRespectToPosition svd_inverse t point k j))
  /\ ((4294967296 <= Z.of_nat VOutputDimension * Z.of_nat VOutputDimension)%Z ->
      Symmetric_VectorPixel t inputTensor point = OutOfRange).
Proof.
  intros Hfit Hlen. split; [intros Hout|intros Hwrap].
  2: { rewrite TransformSymmetricSecondRankTensor_VectorPixel_cases.
       rewrite decide_False
         by (rewrite unsigned_int_mul_exact by exact Hfit; intros Hne; contradiction).
       rewrite decide_False by (intros [_ Hbad]; lia). reflexivity. }
  rewrite TransformSymmetricSecondRankTensor_VectorPixel_conjugates by assumption.
  eexists. split; [reflexivity|]. split.
  - rewrite length_map, length_seq. reflexivity.
  - intros i j Hi Hj.
    rewrite (item_map_seq (fun k =>
               Matrix_times_Matrix VInputDimension
                 (Matrix_times_Matrix VInputDimension
                    (ComputeJacobianWithRespectToPosition t point)
                    (fun i j => item inputTensor (j + VInputDimension * i)))
                 (ComputeInverseJacobianWithRespectToPosition svd_inverse t point)
                 (k / VOutputDimension) (k mod VOutputDimension))) by nia.
    replace (j + VOutputDimension * i) with (j + i * VOutputDimension) by lia.
    rewrite Nat.Div0.mod_add, Nat.div_add, Nat.mod_small, Nat.div_small by lia.
    reflexivity.
Qed.

(** X13. In exact arithmetic a square transform whose Jacobian and inverse
    Jacobian at a point are the identity returns a flattened symmetric
    tensor as it is. *)
Theorem TransformSymmetricSecondRankTensor_VectorPixel_identity
    (t : Transform Derived) (inputTensor : list T) point :
  ring_theory ZeroValue OneValue s_add s_mul s_sub s_opp eq ->
  VOutputDimension = VInputDimension ->
  (Z.of_nat VInputDimension * Z.of_nat VInputDimension < 4294967296)%Z ->
  length inputTensor = VInputDimension * VInputDimension ->
  (forall i j, i < VInputDimension -> j < VInputDimension ->
     ComputeJacobianWithRespectToPosition t point i j
     = if i =? j then OneValue else ZeroValue) ->
  (forall i j, i < VInputDimension -> j < VInputDimension ->
     ComputeInverseJacobianWithRespectToPosition svd_inverse t point i j
     = if i =? j then OneValue else ZeroValue) ->
  Symmetric_VectorPixel t inputTensor point = Returns inputTensor.
Proof.
  intros ring_laws Hsquare Hfit Hlen Hforward Hinverse.
  rewrite TransformSymmetricSecondRankTensor_VectorPixel_conjugates
    by (rewrite ?Hsquare; assumption).
  f_equal. rewrite Hsquare. apply item_ext.
  - rewrite length_map, length_seq. symmetry. exact Hlen.
  - intros k Hk. rewrite length_map, length_seq in Hk.
    rewrite (item_map_seq (fun k =>
               Matrix_times_Matrix VInputDimension
                 (Matrix_times_Matrix VInputDimension
                    (ComputeJacobianWithRespectToPosition t point)
                    (fun i j => item inputTensor (j + VInputDimension * i)))
                 (ComputeInverseJacobianWithRespectToPosition svd_inverse t point)
                 (k / VInputDimension) (k mod VInputDimension))) by exact Hk.
    assert (Hpos : 0 < VInputDimension) by nia.
    assert (Hrow : k / VInputDimension < VInputDimension).
    { apply Nat.Div0.div_lt_upper_bound. lia. }
    assert (Hcol : k mod VInputDimension < VInputDimension).
    { apply Nat.mod_upper_bound. lia. }
    unfold Matrix_times_Matrix.
    transitivity
      (sum_upto VInputDimension (fun c =>
         item inputTensor (c + VInputDimension * (k / VInputDimension))
         *! (if c =? k mod VInputDimension then OneValue else ZeroValue))).
    { apply sum_upto_ext. intros c Hc.
      rewrite (Hinverse c _ Hc Hcol). f_equal.
      transitivity
        (sum_upto VInputDimension (fun l =>
           (if k / VInputDimension =? l then OneValue else ZeroValue)
           *! item inputTensor (c + VInputDimension * l))).
      { apply sum_upto_ext. intros l Hl. rewrite (Hforward _ l Hrow Hl). reflexivity. }
      apply (sum_upto_delta ring_laws VInputDimension (k / VInputDimension)
               (fun l => item inputTensor (c + VInputDimension * l)) Hrow). }
    rewrite (sum_upto_delta_r ring_laws VInputDimension (k mod VInputDimension)
               (fun c => item inputTensor (c + VInputDimension * (k / VInputDimension)))
               Hcol).
    f_equal. pose proof (Nat.div_mod_eq k VInputDimension). lia.
Qed.
End TensorProperties.

(** ** More on the traits of [Vector<T, D>] *)

Section NumericTraitsVectorProperties.
Context {T : Type} `{Scalar T}.
Variable to_double : T -> float.

(** [MakeFilled<Self>(x)], by which [max], [min], [NonpositiveMin],
    [ZeroValue] and [OneValue] build their result from the component's
    value. *)
Definition MakeFilled (D : nat) (x : T) : list T := repeat x D.

(** [AssignToArray(v, mv)] into an array type with unchecked indexing. *)
Definition AssignToArray (v : list T) (mv : list T) : option (list T) :=
  for_loop (GetLength v)
    (fun i mv => mv ≫= fun a =>
       if decide (i < length a) then Some (<[i := item v i]> a) else None)
    (Some mv).

Lemma flag_loop_false (n : nat) (test : nat -> bool) :
  for_loop n (fun i flag => if test i then true else flag) false = false
  <-> forall i, i < n -> test i = false.
Proof.
  rewrite <- Bool.not_true_iff_false, flag_loop. split.
  - intros Hnone i Hi. apply Bool.not_true_iff_false. intros Hti.
    apply Hnone. exists i. auto.
  - intros Hall (i & Hi & Hti). rewrite (Hall i Hi) in Hti. discriminate.
Qed.

Lemma flag_loop_constant (n : nat) (c : bool) (test : nat -> bool) :
  (forall i, i < n -> test i = c) ->
  for_loop n (fun i flag => if test i then true else flag) false = (0 <? n) && c.
Proof.
  intros Htest. destruct n as [|n]; [reflexivity|].
  destruct c; cbn [Nat.ltb Nat.leb andb].
  - apply flag_loop. exists 0. split; [lia | apply Htest; lia].
  - apply flag_loop_false. exact Htest.
Qed.

Lemma item_repeat (x : T) (D i : nat) : i < D -> item (repeat x D) i = x.
Proof.
  revert i. induction D as [|D IH]; intros i Hi; [lia|].
  destruct i as [|i]; [reflexivity|]. apply (IH i). lia.
Qed.

(** X14. [IsNegative(a)] holds exactly when some component is less than the
    literal [0.0] and [IsNonnegative(a)] exactly when some component is not;
    so a vector with at least one component satisfies at least one of the
    two, a vector with none satisfies none of the four predicates, and
    [IsNonnegative(a)] fails only if every component is negative. *)
Theorem IsNegative_IsNonnegative_existential (a : list T) :
  (IsNegative to_double a = true
     <-> exists i, i < length a /\ PrimFloat.ltb (to_double (item a i)) 0%float = true)
  /\ (IsNonnegative to_double a = true
     <-> exists i, i < length a /\ PrimFloat.ltb (to_double (item a i)) 0%float = false)
  /\ (a <> [] -> IsNegative to_double a = true \/ IsNonnegative to_double a = true)
  /\ (a = [] ->
      IsPositive a = false /\ IsNonpositive to_double a = false
      /\ IsNegative to_double a = false /\ IsNonnegative to_double a = false)
  /\ (IsNonnegative to_double a = false ->
      forall i, i < length a -> PrimFloat.ltb (to_double (item a i)) 0%float = true).
Proof.
  assert (Hneg : IsNegative to_double a = true
     <-> exists i, i < length a /\ PrimFloat.ltb (to_double (item a i)) 0%float = true).
  { apply (flag_loop (length a)
             (fun i => PrimFloat.ltb (to_double (item a i)) 0%float)). }
  assert (Hnonneg : IsNonnegative to_double a = true
     <-> exists i, i < length a /\ PrimFloat.ltb (to_double (item a i)) 0%float = false).
  { unfold IsNonnegative, GetLength.
    rewrite (flag_loop (length a)
               (fun i => negb (PrimFloat.ltb (to_double (item a i)) 0%float))).
    split; intros (i & Hi & Hti); exists i; (split; [exact Hi|]);
      apply negb_true_iff; exact Hti. }
  split; [exact Hneg|]. split; [exact Hnonneg|]. split; [|split].
  - intros Hne. destruct a as [|x a]; [contradiction|].
    destruct (PrimFloat.ltb (to_double (item (x :: a) 0)) 0%float) eqn:Hx.
    + left. apply Hneg. exists 0. cbn. split; [lia | exact Hx].
    + right. apply Hnonneg. exists 0. cbn. split; [lia | exact Hx].
  - intros ->. repeat split; reflexivity.
  - intros Hfalse i Hi.
    pose proof (proj1 (flag_loop_false (length a)
                         (fun i => negb (PrimFloat.ltb (to_double (item a i)) 0%float)))
                  Hfalse i Hi) as Hi'.
    apply negb_false_iff in Hi'. exact Hi'.
Qed.

(** X15. On a vector whose components are all one value, as [ZeroValue()],
    [OneValue()], [max()] and [min()] build it, each predicate is the test
    of that value when [D > 0] and false when [D = 0]; there [IsNegative]
    and [IsNonnegative] are each other's negation, which they are not in
    general. *)
Theorem sign_predicates_of_filled (D : nat) (x : T) :
  IsPositive (MakeFilled D x) = (0 <? D) && s_ltb ZeroValue x
  /\ IsNonpositive to_double (MakeFilled D x)
     = (0 <? D) && negb (PrimFloat.ltb 0%float (to_double x))
  /\ IsNegative to_double (MakeFilled D x)
     = (0 <? D) && PrimFloat.ltb (to_double x) 0%float
  /\ IsNonnegative to_double (MakeFilled D x)
     = (0 <? D) && negb (PrimFloat.ltb (to_double x) 0%float)
  /\ (0 < D ->
      IsNonnegative to_double (MakeFilled D x)
      = negb (IsNegative to_double (MakeFilled D x))).
Proof.
  assert (Hlen : GetLength (MakeFilled D x) = D) by apply repeat_length.
  assert (Hpos : IsPositive (MakeFilled D x) = (0 <? D) && s_ltb ZeroValue x).
  { unfold IsPositive. rewrite Hlen.
    apply (flag_loop_constant D _ (fun i => s_ltb ZeroValue (item (MakeFilled D x) i))).
    intros i Hi. unfold MakeFilled. rewrite item_repeat by exact Hi. reflexivity. }
  assert (Hnonpos : IsNonpositive to_double (MakeFilled D x)
                    = (0 <? D) && negb (PrimFloat.ltb 0%float (to_double x))).
  { unfold IsNonpositive. rewrite Hlen.
    apply (flag_loop_constant D _
             (fun i => negb (PrimFloat.ltb 0%float
                               (to_double (item (MakeFilled D x) i))))).
    intros i Hi. unfold MakeFilled. rewrite item_repeat by exact Hi. reflexivity. }
  assert (Hneg : IsNegative to_double (MakeFilled D x)
                 = (0 <? D) && PrimFloat.ltb (to_double x) 0%float).
  { unfold IsNegative. rewrite Hlen.
    apply (flag_loop_constant D _
             (fun i => PrimFloat.ltb (to_double (item (MakeFilled D x) i)) 0%float)).
    intros i Hi. unfold MakeFilled. rewrite item_repeat by exact Hi. reflexivity. }
  assert (Hnonneg : IsNonnegative to_double (MakeFilled D x)
                    = (0 <? D) && negb (PrimFloat.ltb (to_double x) 0%float)).
  { unfold IsNonnegative. rewrite Hlen.
    apply (flag_loop_constant D _
             (fun i => negb (PrimFloat.ltb (to_double (item (MakeFilled D x) i))
                               0%float))).
    intros i Hi. unfold MakeFilled. rewrite item_repeat by exact Hi. reflexivity. }
  repeat split; try assumption.
  intros HD. rewrite Hnonneg, Hneg.
  apply Nat.ltb_lt in HD. rewrite HD. reflexivity.
Qed.

(** X16. [AssignToArray(v, mv)] overwrites the first [D] elements of the
    array with the components of [v] and keeps the others; an array with
    fewer than [D] elements is written outside its bounds. *)
Theorem AssignToArray_copies (v mv : list T) :
  (length v <= length mv -> AssignToArray v mv = Some (v ++ drop (length v) mv))
  /\ (length mv < length v -> AssignToArray v mv = None).
Proof.
  unfold AssignToArray, GetLength.
  assert (Hloop : forall n, n <= length v ->
    for_loop n
      (fun i mv => mv ≫= fun a =>
         if decide (i < length a) then Some (<[i := item v i]> a) else None)
      (Some mv)
    = if decide (n <= length mv) then Some (take n v ++ drop n mv) else None).
  { induction n as [|n IH]; intros Hn.
    - cbn. rewrite drop_0. reflexivity.
    - rewrite for_loop_S, IH by lia.
      assert (Htake : length (take n v) = n) by (rewrite length_take; lia).
      destruct (decide (S n <= length mv)) as [Hin|Hout].
      + rewrite decide_True by lia. cbn [mbind option_bind].
        rewrite decide_True by (rewrite length_app, Htake, length_drop; lia).
        f_equal. rewrite insert_app_r_alt by lia. rewrite Htake, Nat.sub_diag.
        destruct (lookup_lt_is_Some_2 mv n ltac:(lia)) as [y Hy].
        rewrite (drop_S mv y n Hy). cbn [insert list_insert].
        rewrite (take_S_r v n (item v n)) by (apply item_lookup; lia).
        rewrite <- app_assoc. reflexivity.
      + destruct (decide (n <= length mv)) as [Hn'|Hn']; [|reflexivity].
        cbn [mbind option_bind].
        rewrite decide_False; [reflexivity|].
        rewrite length_app, Htake, length_drop. lia. }
  rewrite (Hloop (length v)) by lia. rewrite firstn_all. split; intros Hlen.
  - rewrite decide_True by exact Hlen. reflexivity.
  - rewrite decide_False by lia. reflexivity.
Qed.
End NumericTraitsVectorProperties.

(** A binary64 number that does not compare equal to itself is neither
    greater nor less than zero. *)
Lemma double_unordered (x : float) :
  PrimFloat.eqb x x = false ->
  PrimFloat.ltb 0%float x = false /\ PrimFloat.ltb x 0%float = false.
Proof.
  rewrite FloatAxioms.eqb_spec, !ltb_spec.
  change (Prim2SF 0) with (S754_zero false).
  unfold SFeqb, SFltb, SFcompare.
  destruct (Prim2SF x) as [s|s| |s m e]; try discriminate.
  - destruct s; discriminate.
  - split; reflexivity.
  - destruct s; rewrite Z.compare_refl, Pos.compare_cont_refl; discriminate.
Qed.

(** X17. A vector of doubles with a not-a-number among its components is
    both non-positive and non-negative. *)
Theorem NaN_component_is_nonpositive_and_nonnegative (a : list float) (i : nat) :
  i < length a ->
  PrimFloat.eqb (item a i) (item a i) = false ->
  IsNonpositive (fun x : float => x) a = true
  /\ IsNonnegative (fun x : float => x) a = true.
Proof.
  intros Hi Hnan. destruct (double_unordered _ Hnan) as [Hgt Hlt]. split.
  - apply (flag_loop (length a)
             (fun k => negb (PrimFloat.ltb 0%float (item a k)))).
    exists i. split; [exact Hi|]. rewrite Hgt. reflexivity.
  - apply (flag_loop (length a)
             (fun k => negb (PrimFloat.ltb (item a k) 0%float))).
    exists i. split; [exact Hi|]. rewrite Hlt. reflexivity.
Qed.

(** ** Fixed parameters and cloning *)

(** Where a raw pointer of [CopyInFixedParameters] points: into the data
    block of the transform's own [m_FixedParameters], or into some other
    array. *)
Inductive FixedBlock : Type :=
  | FixedParametersBlock
  | OtherBlock (id : nat).

Record FixedPointer : Type :=
  mkFixedPointer { fixed_block : FixedBlock; fixed_offset : nat }.

#[export] Instance FixedBlock_eq_dec : EqDecision FixedBlock.
Proof. solve_decision. Defined.

#[export] Instance FixedPointer_eq_dec : EqDecision FixedPointer.
Proof. solve_decision. Defined.

Section FixedParametersAndClone.
Context {T : Type} `{Scalar T}.
Context {Derived : Type} {V : @Variant T Derived}.

(** Two more virtual functions of the variant. *)
Variable SetFixedParameters : list T -> @Transform T Derived -> @Transform T Derived.
Variable GetFixedParameters : @Transform T Derived -> list T.

Definition with_FixedParameters (f : list T) (t : @Transform T Derived)
    : @Transform T Derived :=
  {| m_Parameters := m_Parameters t;
     m_FixedParameters := f;
     m_Derived := m_Derived t |}.

(** How [CopyInFixedParameters] ends: the object it leaves and the vector
    it submitted to [SetFixedParameters], if it did. *)
Inductive FixedOutcome : Type :=
  | FixedCompleted (t : @Transform T Derived) (submitted : option (list T))
  | FixedOutOfBounds.

Definition CopyInFixedParameters (memory : nat -> list T)
    (begin end_ : FixedPointer) (t : @Transform T Derived) : FixedOutcome :=
  if decide (begin = end_) then
    FixedCompleted t None
  else
    let copied :=
      if decide (begin <> mkFixedPointer FixedParametersBlock 0) then
        let source :=
          match fixed_block begin with
          | FixedParametersBlock => m_FixedParameters t
          | OtherBlock id => memory id
          end in
        let n := fixed_offset end_ - fixed_offset begin in
        if decide (fixed_block begin = fixed_block end_
                   /\ fixed_offset begin <= fixed_offset end_
                   /\ fixed_offset end_ <= length source
                   /\ n <= length (m_FixedParameters t))
        then Some (take n (drop (fixed_offset begin) source)
                   ++ drop n (m_FixedParameters t))
        else None
      else Some (m_FixedParameters t) in
    match copied with
    | Some f => FixedCompleted (SetFixedParameters f (with_FixedParameters f t)) (Some f)
    | None => FixedOutOfBounds
    end.

(** How [InternalClone] ends.  [Superclass::InternalClone()] creates the new
    object; the downcast of its result to this class can fail. *)
Inductive CloneOutcome : Type :=
  | Cloned (clone this : @Transform T Derived)
  | DowncastFailed (this : @Transform T Derived).

Definition InternalClone (created : option (@Transform T Derived))
    (t : @Transform T Derived) : CloneOutcome :=
  match created with
  | None => DowncastFailed t
  | Some rval =>
      let rval := SetFixedParameters (GetFixedParameters t) rval in
      let t := GetParameters t in
      let rval := SetParameters (m_Parameters t) rval in
      Cloned rval t
  end.

(** X18. [CopyInFixedParameters] follows the protocol of
    [CopyInParameters] on the fixed parameters: an empty range changes
    nothing and submits nothing; a non-empty range of [n] elements that lies
    in another array and fits overwrites the first [n] fixed parameters,
    keeps the others and the parameters, and submits the vector once to
    [SetFixedParameters]. *)
Theorem CopyInFixedParameters_protocol (memory : nat -> list T)
    (id first last : nat) (t : @Transform T Derived) :
  CopyInFixedParameters memory (mkFixedPointer (OtherBlock id) first)
    (mkFixedPointer (OtherBlock id) first) t = FixedCompleted t None
  /\ (first < last -> last <= length (memory id) ->
      last - first <= length (m_FixedParameters t) ->
      exists f,
        CopyInFixedParameters memory (mkFixedPointer (OtherBlock id) first)
          (mkFixedPointer (OtherBlock id) last) t
        = FixedCompleted (SetFixedParameters f (with_FixedParameters f t)) (Some f)
        /\ m_Parameters (with_FixedParameters f t) = m_Parameters t
        /\ length f = length (m_FixedParameters t)
        /\ (forall i, i < last - first -> item f i = item (memory id) (first + i))
        /\ (forall i, last - first <= i -> item f i = item (m_FixedParameters t) i)).
Proof.
  split.
  - unfold CopyInFixedParameters. rewrite decide_True by reflexivity. reflexivity.
  - intros Horder Hsource Hfits.
    exists (take (last - first) (drop first (memory id))
            ++ drop (last - first) (m_FixedParameters t)).
    assert (Htake : length (take (last - first) (drop first (memory id)))
                    = last - first).
    { rewrite length_take, length_drop. lia. }
    split; [|split; [reflexivity|split; [|split]]].
    + unfold CopyInFixedParameters. cbn [fixed_block fixed_offset].
      rewrite decide_False by (intros [= Heq]; lia).
      rewrite decide_True by discriminate.
      rewrite decide_True; [reflexivity|].
      repeat split; try assumption; lia.
    + rewrite length_app, Htake, length_drop. lia.
    + intros i Hi. rewrite item_app_l by (rewrite Htake; exact Hi).
      rewrite item_take by exact Hi. apply item_drop.
    + intros i Hi. rewrite item_app_r by (rewrite Htake; exact Hi).
      rewrite Htake, item_drop. f_equal. lia.
Qed.

(** X19. [InternalClone] throws when the downcast of the new object fails
    and then has touched nothing.  Otherwise the new object is given first
    the fixed parameters and then the refreshed parameters of the original;
    with setters that store what they are handed, and a [SetParameters] that
    keeps the fixed parameters, the clone holds the parameters and fixed
    parameters the original reports. *)
Theorem InternalClone_copies_parameters (created : option (@Transform T Derived))
    (t : @Transform T Derived) :
  (forall p x, m_Parameters (SetParameters p x) = p) ->
  (forall p x, m_FixedParameters (SetParameters p x) = m_FixedParameters x) ->
  (forall f x, m_FixedParameters (SetFixedParameters f x) = f) ->
  match created with
  | None => InternalClone created t = DowncastFailed t
  | Some rval =>
      exists clone,
        InternalClone created t = Cloned clone (GetParameters t)
        /\ clone = SetParameters (Parameters t)
                     (SetFixedParameters (GetFixedParameters t) rval)
        /\ m_Parameters clone = Parameters t
        /\ m_FixedParameters clone = GetFixedParameters t
  end.
Proof.
  intros Hstore Hkeep Hfixed. destruct created as [rval|]; [|reflexivity].
  eexists. split; [reflexivity|]. split; [reflexivity|]. split.
  - apply Hstore.
  - rewrite Hkeep. apply Hfixed.
Qed.
End FixedParametersAndClone.

(** ** Applying a transform to the geometry of an image *)

Section ImageMetadata.
Context {T : Type} `{Scalar T}.

(** [TImage::ImageDimension]. *)
Variable ImageDimension : nat.

(** The image as [ApplyToImageMetadata] uses it: three fields behind
    [GetOrigin]/[SetOrigin], [GetSpacing]/[SetSpacing] and
    [GetDirection]/[SetDirection]. *)
Record ImageGeometry : Type := mkImageGeometry {
  Origin : list T;
  Spacing : list T;
  Direction : Matrix T
}.

(** What is called on the inverse transform: [TransformPoint] and the
    [TransformVector] that takes no point. *)
Record InverseTransform : Type := mkInverseTransform {
  inverse_TransformPoint : list T -> list T;
  inverse_TransformVector : list T -> list T
}.

(** [Vector::Normalize] leaves the normalized vector and returns the norm. *)
Variable Normalize : list T -> list T.
Variable GetNorm : list T -> T.
Variable fresh_array : T.

(** How the call ends; [warned] tells whether [itkWarningMacro] was reached.
    A null inverse is dereferenced. *)
Inductive MetadataOutcome : Type :=
  | MetadataApplied (image : ImageGeometry) (warned : bool)
  | NullInverseDereferenced (warned : bool).

Definition ApplyToImageMetadata (IsLinear : bool)
    (GetInverseTransform : option InverseTransform) (image : ImageGeometry)
    : MetadataOutcome :=
  let warned := negb IsLinear in
  match GetInverseTransform with
  | None => NullInverseDereferenced warned
  | Some inverse =>
      let origin := inverse_TransformPoint inverse (Origin image) in
      let '(spacing, direction) :=
        for_loop ImageDimension (fun i '(spacing, direction) =>
          let dirVector :=
            for_loop ImageDimension
              (fun k dirVector => <[k := direction k i]> dirVector)
              (repeat fresh_array ImageDimension) in
          let dirVector := map (fun x => x *! item spacing i) dirVector in
          let dirVector := inverse_TransformVector inverse dirVector in
          let spacing := <[i := GetNorm dirVector]> spacing in
          let dirVector := Normalize dirVector in
          let direction :=
            for_loop ImageDimension
              (fun k direction => set_entry direction k i (item dirVector k))
              direction in
          (spacing, direction))
          (Spacing image, Direction image) in
      MetadataApplied
        {| Origin := origin; Spacing := spacing; Direction := direction |} warned
  end.

(** The axis vector the inverse transform is given for axis [i]: column [i]
    of the direction matrix times the spacing of the axis, mapped by the
    inverse transform. *)
Definition mapped_axis (inverse : InverseTransform) (image : ImageGeometry)
    (i : nat) : list T :=
  inverse_TransformVector inverse
    (map (fun k => Direction image k i *! item (Spacing image) i)
         (seq 0 ImageDimension)).

Lemma gather_loop (n : nat) (f : nat -> T) (a : list T) :
  length a = n ->
  for_loop n (fun k a => <[k := f k]> a) a = map f (seq 0 n).
Proof.
  intros Hlen.
  assert (HP : length (for_loop n (fun k a => <[k := f k]> a) a) = n
               /\ forall k, k < n ->
                    item (for_loop n (fun k a => <[k := f k]> a) a) k = f k).
  { apply (for_loop_invariant (fun done r =>
             length r = n /\ forall k, k < done -> item r k = f k)).
    - split; [exact Hlen | intros k Hk; lia].
    - intros k r Hk (Hr & Hdone). split.
      + rewrite length_insert. exact Hr.
      + intros k' Hk'. destruct (decide (k' = k)) as [->|Hne].
        * apply item_insert_eq. lia.
        * rewrite item_insert_ne by congruence. apply Hdone. lia. }
  destruct HP as (Hr & Hitems). apply item_ext.
  - rewrite Hr, length_map, length_seq. reflexivity.
  - intros k Hk. rewrite Hr in Hk.
    rewrite Hitems by exact Hk. symmetry. unfold item.
    rewrite list_lookup_fmap, lookup_seq_lt by exact Hk. reflexivity.
Qed.

Lemma column_loop (n i : nat) (g : nat -> T) (m : Matrix T) (k' i' : nat) :
  for_loop n (fun k direction => set_entry direction k i (g k)) m k' i'
  = if (k' <? n) && (i' =? i) then g k' else m k' i'.
Proof.
  induction n as [|n IH]; [reflexivity|].
  rewrite for_loop_S. unfold set_entry at 1. rewrite IH.
  destruct (i' =? i); rewrite ?andb_false_r; [|reflexivity].
  rewrite !andb_true_r.
  destruct (Nat.eqb_spec k' n) as [Heq|Hk].
  - rewrite Heq, (proj2 (Nat.ltb_lt n (S n))) by lia. reflexivity.
  - destruct (Nat.ltb_spec k' n), (Nat.ltb_spec k' (S n)); try lia; reflexivity.
Qed.

(** X20. [ApplyToImageMetadata] with an inverse transform at hand: the
    origin is mapped by the inverse's [TransformPoint]; for every axis [i]
    the new spacing is the norm of the mapped axis vector and column [i] of
    the new direction matrix is that vector normalized, each computed from
    the old column [i] and the old spacing of axis [i] alone; a transform
    that is not linear changes nothing of this and only adds the warning. *)
Theorem ApplyToImageMetadata_per_axis (IsLinear : bool)
    (inverse : InverseTransform) (image : ImageGeometry) :
  length (Spacing image) = ImageDimension ->
  exists image',
    ApplyToImageMetadata IsLinear (Some inverse) image
    = MetadataApplied image' (negb IsLinear)
    /\ Origin image' = inverse_TransformPoint inverse (Origin image)
    /\ length (Spacing image') = ImageDimension
    /\ (forall i, i < ImageDimension ->
          item (Spacing image') i = GetNorm (mapped_axis inverse image i))
    /\ (forall k i, k < ImageDimension -> i < ImageDimension ->
          Direction image' k i = item (Normalize (mapped_axis inverse image i)) k).
Proof.
  intros Hlen. unfold ApplyToImageMetadata.
  set (body := fun (i : nat) '(spacing, direction) => _).
  assert (HP :
    let '(spacing, direction) :=
      for_loop ImageDimension body (Spacing image, Direction image) in
    length spacing = ImageDimension
    /\ (forall i, i < ImageDimension ->
          item spacing i = GetNorm (mapped_axis inverse image i))
    /\ (forall k i, k < ImageDimension -> i < ImageDimension ->
          direction k i = item (Normalize (mapped_axis inverse image i)) k)).
  { pose (P := fun (done : nat) (s : list T * Matrix T) =>
      length (fst s) = ImageDimension
      /\ (forall i, i < done ->
            item (fst s) i = GetNorm (mapped_axis inverse image i))
      /\ (forall i, done <= i -> item (fst s) i = item (Spacing image) i)
      /\ (forall k i, k < ImageDimension -> i < done ->
            snd s k i = item (Normalize (mapped_axis inverse image i)) k)
      /\ (forall k i, done <= i -> snd s k i = Direction image k i)).
    assert (Hfinal : P ImageDimension
              (for_loop ImageDimension body (Spacing image, Direction image))).
    { apply for_loop_invariant.
      - repeat split; try (intros; lia); try reflexivity. exact Hlen.
      - intros i [spacing direction] Hi (Hs & Hdone & Hrest & Hcols & Hold).
        cbn [fst snd] in *. subst body. cbv beta iota zeta.
        rewrite (gather_loop ImageDimension (fun k => direction k i))
          by apply repeat_length.
        rewrite map_map.
        assert (Haxis :
          inverse_TransformVector inverse
            (map (fun k => direction k i *! item spacing i) (seq 0 ImageDimension))
          = mapped_axis inverse image i).
        { unfold mapped_axis. f_equal. apply map_ext_in. intros k _.
          rewrite Hold, Hrest by lia. reflexivity. }
        rewrite Haxis. unfold P. cbn [fst snd]. repeat split.
        + rewrite length_insert. exact Hs.
        + intros i' Hi'. destruct (decide (i' = i)) as [->|Hne].
          * apply item_insert_eq. lia.
          * rewrite item_insert_ne by congruence. apply Hdone. lia.
        + intros i' Hi'. rewrite item_insert_ne by lia. apply Hrest. lia.
        + intros k i' Hk Hi'. rewrite column_loop.
          destruct (Nat.eqb_spec i' i) as [Heq|Hne].
          * rewrite Heq, (proj2 (Nat.ltb_lt k ImageDimension) Hk). reflexivity.
          * rewrite andb_false_r. apply Hcols; lia.
        + intros k i' Hi'. rewrite column_loop.
          destruct (Nat.eqb_spec i' i) as [Heq|Hne]; [lia|].
          rewrite andb_false_r. apply Hold. lia. }
    destruct (for_loop ImageDimension body (Spacing image, Direction image))
      as [spacing direction].
    destruct Hfinal as (Hs & Hdone & _ & Hcols & _). cbn [fst snd] in *.
    repeat split; assumption. }
  destruct (for_loop ImageDimension body (Spacing image, Direction image))
    as [spacing direction].
  destruct HP as (Hs & Hdone & Hcols).
  eexists. split; [reflexivity|]. cbn [Origin Spacing Direction].
  repeat split; assumption.
Qed.

(** [ApplyToImageMetadata] does not test the pointer [GetInverseTransform]
    returns: without an inverse it dereferences null, after the warning if
    the transform is not linear. *)
Lemma ApplyToImageMetadata_without_inverse (IsLinear : bool)
    (image : ImageGeometry) :
  ApplyToImageMetadata IsLinear None image = NullInverseDereferenced (negb IsLinear).
Proof. reflexivity. Qed.
End ImageMetadata.

(** ** The further properties on concrete objects *)

(** A variant that breaks the size contract: it reports one parameter more
    than the vector it stores has. *)
Definition miscounting_Variant {T : Type} `{Scalar T} : Variant nat := {|
  GetNumberOfParameters t := S (length (m_Parameters t));
  GetParameters t := t;
  SetParameters p t :=
    {| m_Parameters := p;
       m_FixedParameters := m_FixedParameters t;
       m_Derived := m_Derived t |};
  ComputeJacobianWithRespectToPosition _ _ :=
    fun i j => if i =? j then OneValue else ZeroValue
|}.

(** A two-dimensional transform in exact arithmetic with the reference
    variant. *)
Definition exact_transform (parameters : list Z) : Transform nat :=
  mkTransform parameters [] 0.

Lemma TransformVector_linear_witness :
  item (TransformVector (V := counting_Variant) 2 2 0%Z (exact_transform [])
          [2; 1]%Z []) 0
  = (2 * item (TransformVector (V := counting_Variant) 2 2 0%Z (exact_transform [])
                 [1; 0]%Z []) 0
     + item (TransformVector (V := counting_Variant) 2 2 0%Z (exact_transform [])
               [0; 1]%Z []) 0)%Z.
Proof.
  refine (TransformVector_linear (V := counting_Variant) 2 2 0%Z
            (laws_ring exact_laws) (exact_transform []) 2%Z
            [2; 1]%Z [1; 0]%Z [0; 1]%Z [] _ 0 _).
  - intros j Hj. destruct j as [|[|j]]; [reflexivity | reflexivity | lia].
  - lia.
Defined.

Lemma TransformCovariantVector_linear_witness :
  item (TransformCovariantVector (V := counting_Variant) 2 2 inverse_of_identity
          0%Z (exact_transform []) [2; 1]%Z []) 1
  = (2 * item (TransformCovariantVector (V := counting_Variant) 2 2
                 inverse_of_identity 0%Z (exact_transform []) [1; 0]%Z []) 1
     + item (TransformCovariantVector (V := counting_Variant) 2 2
               inverse_of_identity 0%Z (exact_transform []) [0; 1]%Z []) 1)%Z.
Proof.
  refine (TransformCovariantVector_linear (V := counting_Variant) 2 2
            inverse_of_identity 0%Z (laws_ring exact_laws) (exact_transform []) 2%Z
            [2; 1]%Z [1; 0]%Z [0; 1]%Z [] _ 1 _).
  - intros j Hj. destruct j as [|[|j]]; [reflexivity | reflexivity | lia].
  - lia.
Defined.

Lemma covariant_pairing_preserved_witness :
  sum_upto 2 (fun i =>
    item (TransformCovariantVector (V := counting_Variant) 2 2 inverse_of_identity
            0%Z (exact_transform []) [3; 4]%Z []) i
    *! item (TransformVector (V := counting_Variant) 2 2 0%Z (exact_transform [])
               [5; 6]%Z []) i)
  = 39%Z.
Proof.
  refine (covariant_pairing_preserved (V := counting_Variant) 2 2
            inverse_of_identity 0%Z (laws_ring exact_laws) (exact_transform [])
            [5; 6]%Z [3; 4]%Z [] _).
  intros j k Hj Hk.
  destruct j as [|[|j]]; [| |lia]; destruct k as [|[|k]]; try lia; reflexivity.
Defined.

Lemma UpdateTransformParameters_bounds_witness :
  UpdateTransformParameters (V := miscounting_Variant) [1; 2]%float 1%float
    (double_transform [0]%float) = OutOfBounds.
Proof.
  apply (proj1 (UpdateTransformParameters_bounds (V := miscounting_Variant)
                  [1; 2]%float 1%float (double_transform [0]%float) eq_refl)).
  cbn. lia.
Defined.

Lemma UpdateTransformParameters_twice_witness :
  exists t1 calls1 t2 calls2,
    UpdateTransformParameters (V := counting_Variant) [1; 2]%float 1%float
      (double_transform [0; 0]%float) = Completed t1 calls1
    /\ UpdateTransformParameters (V := counting_Variant) [4; 8]%float 2%float t1
       = Completed t2 calls2
    /\ m_Parameters t2 = [9; 18]%float.
Proof.
  destruct (UpdateTransformParameters_twice (V := counting_Variant)
              [1; 2]%float [4; 8]%float 1%float 2%float
              (double_transform [0; 0]%float)
              counting_Variant_contract eq_refl eq_refl)
    as (t1 & calls1 & t2 & calls2 & Hrun1 & Hrun2 & _ & Hlen & Hitems).
  exists t1, calls1, t2, calls2. split; [exact Hrun1|]. split; [exact Hrun2|].
  apply item_ext; [exact Hlen|].
  intros k Hk. rewrite Hlen in Hk. cbn in Hk. rewrite (Hitems k Hk).
  destruct k as [|[|k]]; [reflexivity | reflexivity | lia].
Defined.

Lemma CopyInParameters_copies_range_witness :
  exists p,
    CopyInParameters (V := counting_Variant) (fun _ => [7; 8; 9]%float)
      (mkPointer (ForeignBlock 0) 1) (mkPointer (ForeignBlock 0) 3)
      (double_transform [1; 2; 3]%float)
    = Completed (SetParameters (Variant := counting_Variant) p
                   (with_Parameters p (double_transform [1; 2; 3]%float)))
                [CallSetParameters p]
    /\ item p 0 = 8%float /\ item p 1 = 9%float /\ item p 2 = 3%float.
Proof.
  destruct (CopyInParameters_copies_range (V := counting_Variant)
              (fun _ => [7; 8; 9]%float)
              (mkPointer (ForeignBlock 0) 1) (mkPointer (ForeignBlock 0) 3)
              (double_transform [1; 2; 3]%float)
              ltac:(discriminate) eq_refl ltac:(cbn; lia) ltac:(cbn; lia)
              ltac:(cbn; lia))
    as (p & Hrun & _ & Hcopied & Hkept).
  exists p. split; [exact Hrun|]. cbn in Hcopied, Hkept.
  split; [apply (Hcopied 0); lia|]. split; [apply (Hcopied 1); lia|].
  apply (Hkept 2). lia.
Defined.

Lemma CopyInParameters_onto_self_witness :
  CopyInParameters (V := counting_Variant) (fun _ => [])
    (mkPointer ParametersBlock 0) (mkPointer ParametersBlock 2)
    (double_transform [1; 2]%float)
  = Completed (mkTransform [1; 2]%float [] 1) [CallSetParameters [1; 2]%float].
Proof.
  exact (CopyInParameters_onto_self (V := counting_Variant) (fun _ => [])
           (mkPointer ParametersBlock 2) (double_transform [1; 2]%float)
           ltac:(discriminate)).
Defined.

Lemma CopyInParameters_overflow_witness :
  CopyInParameters (V := counting_Variant) (fun _ => [7; 8; 9]%float)
    (mkPointer (ForeignBlock 0) 0) (mkPointer (ForeignBlock 0) 3)
    (double_transform [1; 2]%float)
  = OutOfBounds.
Proof.
  apply (CopyInParameters_overflow (V := counting_Variant)
           (fun _ => [7; 8; 9]%float)
           (mkPointer (ForeignBlock 0) 0) (mkPointer (ForeignBlock 0) 3)
           (double_transform [1; 2]%float)).
  - discriminate.
  - discriminate.
  - left. cbn. lia.
Defined.

(** The reorientation of a two-dimensional transform does not see the third
    row and column of the inverse Jacobian. *)
Lemma Reorientation_reads_3x3_block_witness :
  PreservationOfPrincipalDirectionDiffusionTensor3DReorientation 2 2
    diagonal_eigen_analysis Normalize_unit [1; 0; 0; 2; 0; 3]%Z
    (fun i j => if i =? j then 1%Z else 0%Z)
  = PreservationOfPrincipalDirectionDiffusionTensor3DReorientation 2 2
      diagonal_eigen_analysis Normalize_unit [1; 0; 0; 2; 0; 3]%Z
      (fun i j => if (i <? 2) && (j <? 2) then (if i =? j then 1%Z else 0%Z) else 7%Z).
Proof.
  apply (Reorientation_reads_3x3_block 2 2 diagonal_eigen_analysis Normalize_unit).
  intros i j _ _ Hi Hj.
  rewrite (proj2 (Nat.ltb_lt i 2) Hi), (proj2 (Nat.ltb_lt j 2) Hj). reflexivity.
Defined.

Lemma TransformSymmetricSecondRankTensor_VectorPixel_entries_witness :
  exists r,
    TransformSymmetricSecondRankTensor_VectorPixel (V := counting_Variant) 2 2
      inverse_of_identity 0%float (double_transform []) [1; 2; 2; 5]%float []
    = Returns r
    /\ length r = 4.
Proof.
  destruct (proj1 (TransformSymmetricSecondRankTensor_VectorPixel_entries
                     (V := counting_Variant) 2 2 inverse_of_identity 0%float
                     (double_transform []) [1; 2; 2; 5]%float []
                     ltac:(reflexivity) eq_refl) ltac:(reflexivity))
    as (r & Hrun & Hlen & _).
  exists r. split; [exact Hrun | exact Hlen].
Defined.

Lemma TransformSymmetricSecondRankTensor_VectorPixel_identity_witness :
  TransformSymmetricSecondRankTensor_VectorPixel (V := counting_Variant) 2 2
    inverse_of_identity 0%Z (exact_transform []) [1; 2; 2; 5]%Z []
  = Returns [1; 2; 2; 5]%Z.
Proof.
  refine (TransformSymmetricSecondRankTensor_VectorPixel_identity
            (V := counting_Variant) 2 2 inverse_of_identity 0%Z
            (exact_transform []) [1; 2; 2; 5]%Z []
            (laws_ring exact_laws) eq_refl ltac:(reflexivity) eq_refl _ _);
    intros i j _ _; reflexivity.
Defined.

Lemma NaN_component_is_nonpositive_and_nonnegative_witness :
  IsNonpositive (fun x : float => x) [1; nan]%float = true
  /\ IsNonnegative (fun x : float => x) [1; nan]%float = true.
Proof.
  refine (NaN_component_is_nonpositive_and_nonnegative [1; nan]%float 1 _ _).
  - cbn. lia.
  - reflexivity.
Defined.

Lemma InternalClone_copies_parameters_witness :
  exists clone,
    InternalClone (V := counting_Variant) with_FixedParameters m_FixedParameters
      (Some (mkTransform [] [] 0))
      (mkTransform [1; 2]%float [3]%float 5)
    = Cloned clone (mkTransform [1; 2]%float [3]%float 5)
    /\ m_Parameters clone = [1; 2]%float
    /\ m_FixedParameters clone = [3]%float.
Proof.
  destruct (InternalClone_copies_parameters (V := counting_Variant)
              with_FixedParameters m_FixedParameters
              (Some (mkTransform [] [] 0))
              (mkTransform [1; 2]%float [3]%float 5)
              ltac:(reflexivity) ltac:(reflexivity) ltac:(reflexivity))
    as (clone & Hrun & _ & Hp & Hf).
  exists clone. split; [exact Hrun|]. split; [exact Hp | exact Hf].
Defined.

(** The geometry of a two-dimensional image under an inverse transform that
    doubles every vector, with a norm and a normalization that fit the axis
    vectors met here. *)
Lemma ApplyToImageMetadata_per_axis_witness :
  exists image',
    ApplyToImageMetadata 2 (fun v => map (fun x => Z.sgn x) v)
      (fun v => (Z.abs (item v 0) + Z.abs (item v 1))%Z) 0%Z true
      (Some (mkInverseTransform (fun p => p) (fun v => map (fun x => (2 * x)%Z) v)))
      (mkImageGeometry [0; 0]%Z [3; 4]%Z (fun k i => if k =? i then 1%Z else 0%Z))
    = MetadataApplied image' false
    /\ item (Spacing image') 0 = 6%Z
    /\ item (Spacing image') 1 = 8%Z.
Proof.
  destruct (ApplyToImageMetadata_per_axis 2 (fun v => map (fun x => Z.sgn x) v)
              (fun v => (Z.abs (item v 0) + Z.abs (item v 1))%Z) 0%Z true
              (mkInverseTransform (fun p => p) (fun v => map (fun x => (2 * x)%Z) v))
              (mkImageGeometry [0; 0]%Z [3; 4]%Z
                 (fun k i => if k =? i then 1%Z else 0%Z))
              eq_refl)
    as (image' & Hrun & _ & _ & Hspacing & _).
  exists image'. split; [exact Hrun|].
  split; [apply (Hspacing 0); lia | apply (Hspacing 1); lia].
Defined.

(** ** The reorientation and the eigenvectors it is given *)

Section ReorientationEigenvectors.
Context {T : Type} `{Scalar T}.
Variables VInputDimension VOutputDimension : nat.
Variable Normalize : list T -> list T.

Local Abbreviation Reorientation :=
  (PreservationOfPrincipalDirectionDiffusionTensor3DReorientation
     VInputDimension VOutputDimension).

(** The reorientation after the eigen-analysis, as a function of the
    eigenvalues and of the two eigenvectors it reads. *)
Definition reorient (matrix : Matrix T) (eigenValues E1 E2 : list T) : list T :=
  let ev1 := Normalize (Matrix_times_Vector matrix E1) in
  let ev2 := Matrix_times_Vector matrix E2 in
  let dp := Vector_dot ev2 ev1 in
  let '(ev2, dp) :=
    if s_ltb dp ZeroValue
    then (Vector_scale ev2 MinusOne, dp *! MinusOne)
    else (ev2, dp) in
  let ev2 := Normalize (Vector_minus ev2 (Vector_scale ev1 dp)) in
  let ev3 := CrossHelper ev1 ev2 in
  let rotated : Matrix T := fun i j =>
    item eigenValues 2 *! item ev1 i *! item ev1 j
    +! item eigenValues 1 *! item ev2 i *! item ev2 j
    +! item eigenValues 0 *! item ev3 i *! item ev3 j in
  [ rotated 0 0; rotated 0 1; rotated 0 2;
    rotated 1 1; rotated 1 2; rotated 2 2 ].

Definition block_matrix (jacobian : Matrix T) : Matrix T :=
  fun i j =>
    if (i <? VInputDimension) && (j <? VOutputDimension) && (i <? 3) && (j <? 3)
    then jacobian i j
    else if i =? j then OneValue else ZeroValue.

Lemma Reorientation_reorient (ComputeEigenAnalysis : list T -> list T * Matrix T)
    (inputTensor : list T) (jacobian : Matrix T) :
  Reorientation ComputeEigenAnalysis Normalize inputTensor jacobian
  = reorient (block_matrix jacobian)
      (fst (ComputeEigenAnalysis inputTensor))
      (map (fun i => snd (ComputeEigenAnalysis inputTensor) 2 i) (seq 0 3))
      (map (fun i => snd (ComputeEigenAnalysis inputTensor) 1 i) (seq 0 3)).
Proof.
  unfold PreservationOfPrincipalDirectionDiffusionTensor3DReorientation,
    rotated_matrix, reorient.
  destruct (ComputeEigenAnalysis inputTensor) as [eigenValues eigenVectors].
  cbn [fst snd]. fold (block_matrix jacobian).
  destruct (s_ltb _ _); reflexivity.
Qed.

Lemma reorient_ext (matrix : Matrix T) (eigenValues eigenValues' E1 E2 : list T) :
  (forall k, k < 3 -> item eigenValues k = item eigenValues' k) ->
  reorient matrix eigenValues E1 E2 = reorient matrix eigenValues' E1 E2.
Proof.
  intros Hvalues. unfold reorient.
  destruct (s_ltb _ _); rewrite !Hvalues by lia; reflexivity.
Qed.

(** X21. The reorientation reads the eigenvalues and the eigenvectors of
    the two larger ones only: two eigen-analyses that agree on these give the
    same tensor, whatever they report as eigenvector of the smallest
    eigenvalue, which the cross product replaces. *)
Theorem Reorientation_ignores_smallest_eigenvector
    (ComputeEigenAnalysis ComputeEigenAnalysis' : list T -> list T * Matrix T)
    (inputTensor : list T) (jacobian : Matrix T) :
  (forall k, k < 3 ->
     item (fst (ComputeEigenAnalysis inputTensor)) k
     = item (fst (ComputeEigenAnalysis' inputTensor)) k) ->
  (forall r c, 1 <= r < 3 -> c < 3 ->
     snd (ComputeEigenAnalysis inputTensor) r c
     = snd (ComputeEigenAnalysis' inputTensor) r c) ->
  Reorientation ComputeEigenAnalysis Normalize inputTensor jacobian
  = Reorientation ComputeEigenAnalysis' Normalize inputTensor jacobian.
Proof.
  intros Hvalues Hvectors. rewrite !Reorientation_reorient.
  rewrite (reorient_ext _ _ _ _ _ Hvalues).
  f_equal; apply map_ext_in; intros c Hc; apply in_seq in Hc;
    apply Hvectors; lia.
Qed.

Section Signs.
Hypothesis ring_laws : ring_theory ZeroValue OneValue s_add s_mul s_sub s_opp eq.
Hypothesis minus_one : MinusOne = s_opp OneValue.
Hypothesis negative_flips : forall x, s_ltb (s_opp x) ZeroValue = s_ltb ZeroValue x.
Hypothesis negative_not_positive :
  forall x, s_ltb x ZeroValue = true -> s_ltb ZeroValue x = false.
Hypothesis neither_is_zero :
  forall x, s_ltb x ZeroValue = false -> s_ltb ZeroValue x = false -> x = ZeroValue.
Hypothesis Normalize_odd :
  forall v, Normalize (Vector_scale v MinusOne) = Vector_scale (Normalize v) MinusOne.

Add Ring signs_ring : ring_laws.

Definition negated (E : list T) : list T := map (fun i => s_opp (item E i)) (seq 0 3).

Lemma three_eq (a0 a1 a2 b0 b1 b2 : T) :
  a0 = b0 -> a1 = b1 -> a2 = b2 -> [a0; a1; a2] = [b0; b1; b2].
Proof. congruence. Qed.

Lemma six_eq (a0 a1 a2 a3 a4 a5 b0 b1 b2 b3 b4 b5 : T) :
  a0 = b0 -> a1 = b1 -> a2 = b2 -> a3 = b3 -> a4 = b4 -> a5 = b5 ->
  [a0; a1; a2; a3; a4; a5] = [b0; b1; b2; b3; b4; b5].
Proof. congruence. Qed.

Lemma Matrix_times_negated (m : Matrix T) (E : list T) :
  Matrix_times_Vector m (negated E) = Vector_scale (Matrix_times_Vector m E) MinusOne.
Proof.
  unfold Matrix_times_Vector, Vector_scale, negated. cbn.
  rewrite minus_one. apply three_eq; unfold s_opp; ring.
Qed.

Lemma Vector_scale_twice (m : Matrix T) (E : list T) :
  Vector_scale (Vector_scale (Matrix_times_Vector m E) MinusOne) MinusOne
  = Matrix_times_Vector m E.
Proof.
  unfold Matrix_times_Vector, Vector_scale. cbn.
  rewrite minus_one. apply three_eq; unfold s_opp; ring.
Qed.

Lemma Vector_dot_scale_l (a b : list T) :
  Vector_dot (Vector_scale a MinusOne) b = s_opp (Vector_dot a b).
Proof.
  unfold Vector_dot, Vector_scale. cbn. rewrite minus_one. unfold s_opp. ring.
Qed.

Lemma Vector_dot_scale_r (a b : list T) :
  Vector_dot a (Vector_scale b MinusOne) = s_opp (Vector_dot a b).
Proof.
  unfold Vector_dot, Vector_scale. cbn. rewrite minus_one. unfold s_opp. ring.
Qed.

(** The tensor built from three axes does not change when the first two
    axes change sign. *)
Lemma outer_products_even (eigenValues ev1 ev2 : list T) (s1 s2 : bool) :
  let flip (s : bool) (v : list T) := if s then Vector_scale v MinusOne else v in
  let tensor (ev1 ev2 : list T) :=
    let ev3 := CrossHelper ev1 ev2 in
    let rotated : Matrix T := fun i j =>
      item eigenValues 2 *! item ev1 i *! item ev1 j
      +! item eigenValues 1 *! item ev2 i *! item ev2 j
      +! item eigenValues 0 *! item ev3 i *! item ev3 j in
    [ rotated 0 0; rotated 0 1; rotated 0 2;
      rotated 1 1; rotated 1 2; rotated 2 2 ] in
  tensor (flip s1 ev1) (flip s2 ev2) = tensor ev1 ev2.
Proof.
  intros flip tensor. subst flip tensor. cbv beta zeta.
  destruct s1, s2; unfold CrossHelper, Vector_scale; cbn;
    rewrite ?minus_one; apply six_eq; unfold s_opp; ring.
Qed.
Lemma reorient_secondary_sign (m : Matrix T) (eigenValues E1 E2 : list T) :
  reorient m eigenValues E1 (negated E2) = reorient m eigenValues E1 E2.
Proof.
  unfold reorient. rewrite Matrix_times_negated.
  set (ev1 := Normalize (Matrix_times_Vector m E1)).
  rewrite Vector_dot_scale_l, negative_flips.
  set (dp := Vector_dot (Matrix_times_Vector m E2) ev1).
  destruct (s_ltb dp ZeroValue) eqn:Hlt.
  - rewrite (negative_not_positive _ Hlt).
    replace (dp *! MinusOne) with (s_opp dp)
      by (rewrite minus_one; unfold s_opp; ring).
    reflexivity.
  - destruct (s_ltb ZeroValue dp) eqn:Hgt.
    + rewrite Vector_scale_twice.
      replace (s_opp dp *! MinusOne) with dp
        by (rewrite minus_one; unfold s_opp; ring).
      reflexivity.
    + pose proof (neither_is_zero dp Hlt Hgt) as Hzero.
      clearbody dp ev1. subst dp.
      assert (Hv :
        Vector_minus (Vector_scale (Matrix_times_Vector m E2) MinusOne)
                     (Vector_scale ev1 (s_opp ZeroValue))
        = Vector_scale
            (Vector_minus (Matrix_times_Vector m E2) (Vector_scale ev1 ZeroValue))
            MinusOne).
      { unfold Vector_minus, Vector_scale, Matrix_times_Vector. cbn.
        rewrite minus_one. apply three_eq; unfold s_opp; ring. }
      rewrite Hv, Normalize_odd.
      apply (outer_products_even eigenValues ev1
               (Normalize (Vector_minus (Matrix_times_Vector m E2)
                                        (Vector_scale ev1 ZeroValue)))
               false true).
Qed.

Lemma reorient_primary_sign (m : Matrix T) (eigenValues E1 E2 : list T) :
  reorient m eigenValues (negated E1) E2 = reorient m eigenValues E1 E2.
Proof.
  unfold reorient. rewrite Matrix_times_negated, Normalize_odd.
  set (ev1 := Normalize (Matrix_times_Vector m E1)).
  rewrite Vector_dot_scale_r, negative_flips.
  set (dp := Vector_dot (Matrix_times_Vector m E2) ev1).
  destruct (s_ltb dp ZeroValue) eqn:Hlt.
  - rewrite (negative_not_positive _ Hlt).
    clearbody dp ev1.
    assert (Hv :
      Vector_minus (Vector_scale (Matrix_times_Vector m E2) MinusOne)
                   (Vector_scale ev1 (dp *! MinusOne))
      = Vector_scale
          (Vector_minus (Matrix_times_Vector m E2)
                        (Vector_scale (Vector_scale ev1 MinusOne) (s_opp dp)))
          MinusOne).
    { unfold Vector_minus, Vector_scale, Matrix_times_Vector. cbn.
      rewrite minus_one. apply three_eq; unfold s_opp; ring. }
    rewrite Hv, Normalize_odd.
    set (n := Normalize _).
    transitivity
      ((fun ev1 ev2 =>
          let ev3 := CrossHelper ev1 ev2 in
          let rotated : Matrix T := fun i j =>
            item eigenValues 2 *! item ev1 i *! item ev1 j
            +! item eigenValues 1 *! item ev2 i *! item ev2 j
            +! item eigenValues 0 *! item ev3 i *! item ev3 j in
          [ rotated 0 0; rotated 0 1; rotated 0 2;
            rotated 1 1; rotated 1 2; rotated 2 2 ]) ev1 n).
    + apply (outer_products_even eigenValues ev1 n true false).
    + symmetry. apply (outer_products_even eigenValues ev1 n false true).
  - destruct (s_ltb ZeroValue dp) eqn:Hgt.
    + clearbody dp ev1.
      assert (Hv :
        Vector_minus (Vector_scale (Matrix_times_Vector m E2) MinusOne)
                     (Vector_scale (Vector_scale ev1 MinusOne) (s_opp dp *! MinusOne))
        = Vector_scale
            (Vector_minus (Matrix_times_Vector m E2) (Vector_scale ev1 dp))
            MinusOne).
      { unfold Vector_minus, Vector_scale, Matrix_times_Vector. cbn.
        rewrite minus_one. apply three_eq; unfold s_opp; ring. }
      rewrite Hv, Normalize_odd.
      apply (outer_products_even eigenValues ev1
               (Normalize (Vector_minus (Matrix_times_Vector m E2)
                                        (Vector_scale ev1 dp)))
               true true).
    + pose proof (neither_is_zero dp Hlt Hgt) as Hzero.
      clearbody dp ev1. subst dp.
      assert (Hv :
        Vector_minus (Matrix_times_Vector m E2)
                     (Vector_scale (Vector_scale ev1 MinusOne) (s_opp ZeroValue))
        = Vector_minus (Matrix_times_Vector m E2) (Vector_scale ev1 ZeroValue)).
      { unfold Vector_minus, Vector_scale, Matrix_times_Vector. cbn.
        rewrite minus_one. apply three_eq; unfold s_opp; ring. }
      rewrite Hv.
      apply (outer_products_even eigenValues ev1
               (Normalize (Vector_minus (Matrix_times_Vector m E2)
                                        (Vector_scale ev1 ZeroValue)))
               true false).
Qed.

(** X22. An eigenvector is fixed only up to its sign, and in exact
    arithmetic with an odd [Normalize] the reorientation does not depend on
    the sign the eigen-analysis picks: an eigen-analysis that reports the
    same eigenvalues and, for each of the two eigenvectors read, the same
    vector or its negative gives the same tensor. *)
Theorem Reorientation_eigenvector_signs
    (ComputeEigenAnalysis ComputeEigenAnalysis' : list T -> list T * Matrix T)
    (inputTensor : list T) (jacobian : Matrix T) :
  (forall k, k < 3 ->
     item (fst (ComputeEigenAnalysis' inputTensor)) k
     = item (fst (ComputeEigenAnalysis inputTensor)) k) ->
  (forall r, 1 <= r < 3 ->
     (forall c, c < 3 ->
        snd (ComputeEigenAnalysis' inputTensor) r c
        = snd (ComputeEigenAnalysis inputTensor) r c)
     \/ (forall c, c < 3 ->
          snd (ComputeEigenAnalysis' inputTensor) r c
          = s_opp (snd (ComputeEigenAnalysis inputTensor) r c))) ->
  Reorientation ComputeEigenAnalysis' Normalize inputTensor jacobian
  = Reorientation ComputeEigenAnalysis Normalize inputTensor jacobian.
Proof.
  intros Hvalues Hvectors. rewrite !Reorientation_reorient.
  rewrite (reorient_ext _ _ _ _ _ Hvalues).
  set (vectors := snd (ComputeEigenAnalysis inputTensor)) in *.
  set (vectors' := snd (ComputeEigenAnalysis' inputTensor)) in *.
  assert (Hrow : forall r, 1 <= r < 3 ->
    map (fun i => vectors' r i) (seq 0 3) = map (fun i => vectors r i) (seq 0 3)
    \/ map (fun i => vectors' r i) (seq 0 3)
       = negated (map (fun i => vectors r i) (seq 0 3))).
  { intros r Hr. destruct (Hvectors r Hr) as [Hsame|Hneg].
    - left. apply map_ext_in. intros c Hc. apply in_seq in Hc. apply Hsame. lia.
    - right. cbn. apply three_eq; apply Hneg; lia. }
  destruct (Hrow 2 ltac:(lia)) as [-> | ->], (Hrow 1 ltac:(lia)) as [-> | ->];
    rewrite ?reorient_primary_sign, ?reorient_secondary_sign; reflexivity.
Qed.
End Signs.
End ReorientationEigenvectors.

(** ** Transforms whose Jacobian is the identity *)

Section IdentityJacobian.
Context {T : Type} `{Scalar T}.
Variable Dimension : nat.
Context {Derived : Type} {V : @Variant T Derived}.
Variable svd_inverse : Matrix T -> Matrix T.
Variable fresh_array : T.

Lemma TransformVector_length (t : Transform Derived) (v : list T) (point : Point) :
  length (TransformVector Dimension Dimension fresh_array t v point) = Dimension.
Proof.
  unfold TransformVector.
  rewrite (accumulate_rows Dimension Dimension
             (fun i j => ComputeJacobianWithRespectToPosition t point i j *! item v j))
    by apply repeat_length.
  rewrite length_map, length_seq. reflexivity.
Qed.

Lemma TransformCovariantVector_length (t : Transform Derived) (v : list T)
    (point : Point) :
  length (TransformCovariantVector Dimension Dimension svd_inverse fresh_array
            t v point) = Dimension.
Proof.
  unfold TransformCovariantVector.
  rewrite (accumulate_rows Dimension Dimension
             (fun i j =>
                ComputeInverseJacobianWithRespectToPosition svd_inverse t point j i
                *! item v j))
    by apply repeat_length.
  rewrite length_map, length_seq. reflexivity.
Qed.

(** X23. In exact arithmetic a transform of equal input and output dimension
    whose Jacobian at a point is the identity, as that of a translation,
    returns every vector as it is; and so it returns every covariant vector
    when the inverse Jacobian is the identity too. *)
Theorem identity_Jacobian_keeps_vectors (t : Transform Derived)
    (v : list T) (point : Point) :
  ring_theory ZeroValue OneValue s_add s_mul s_sub s_opp eq ->
  length v = Dimension ->
  (forall i j, i < Dimension -> j < Dimension ->
     ComputeJacobianWithRespectToPosition t point i j
     = if i =? j then OneValue else ZeroValue) ->
  TransformVector Dimension Dimension fresh_array t v point = v
  /\ ((forall i j, i < Dimension -> j < Dimension ->
         ComputeInverseJacobianWithRespectToPosition svd_inverse t point i j
         = if i =? j then OneValue else ZeroValue) ->
      TransformCovariantVector Dimension Dimension svd_inverse fresh_array t v point
      = v).
Proof.
  intros ring_laws Hlen Hforward. split; [|intros Hinverse]; apply item_ext.
  - rewrite Hlen. apply TransformVector_length.
  - intros i Hi. rewrite TransformVector_length in Hi.
    rewrite TransformVector_item by exact Hi.
    rewrite (sum_upto_ext Dimension _
               (fun j => (if i =? j then OneValue else ZeroValue) *! item v j)).
    + apply (sum_upto_delta ring_laws Dimension i (fun j => item v j) Hi).
    + intros j Hj. rewrite (Hforward i j Hi Hj). reflexivity.
  - rewrite Hlen. apply TransformCovariantVector_length.
  - intros i Hi. rewrite TransformCovariantVector_length in Hi.
    rewrite TransformCovariantVector_item by exact Hi.
    rewrite (sum_upto_ext Dimension _
               (fun j => item v j *! (if j =? i then OneValue else ZeroValue))).
    + apply (sum_upto_delta_r ring_laws Dimension i (fun j => item v j) Hi).
    + intros j Hj. rewrite (Hinverse j i Hj Hi). apply (Rmul_comm ring_laws).
Qed.
End IdentityJacobian.

(** The eigen-analysis of a diagonal tensor with other signs, and with
    another third eigenvector. *)
Definition diagonal_eigen_analysis_negated (tensor : list Z) : list Z * Matrix Z :=
  (fst (diagonal_eigen_analysis tensor),
   fun r c => (- snd (diagonal_eigen_analysis tensor) r c)%Z).

Definition diagonal_eigen_analysis_two_rows (tensor : list Z) : list Z * Matrix Z :=
  (fst (diagonal_eigen_analysis tensor),
   fun r c => if r =? 0 then 7%Z else snd (diagonal_eigen_analysis tensor) r c).

Lemma Reorientation_ignores_smallest_eigenvector_witness :
  PreservationOfPrincipalDirectionDiffusionTensor3DReorientation 3 3
    diagonal_eigen_analysis Normalize_unit [1; 0; 0; 2; 0; 3]%Z
    (fun i j => if i =? j then 1%Z else 0%Z)
  = PreservationOfPrincipalDirectionDiffusionTensor3DReorientation 3 3
      diagonal_eigen_analysis_two_rows Normalize_unit [1; 0; 0; 2; 0; 3]%Z
      (fun i j => if i =? j then 1%Z else 0%Z).
Proof.
  apply (Reorientation_ignores_smallest_eigenvector 3 3 Normalize_unit
           diagonal_eigen_analysis diagonal_eigen_analysis_two_rows).
  - intros k Hk. reflexivity.
  - intros r c Hr Hc. destruct r as [|r]; [lia | reflexivity].
Defined.

Lemma Reorientation_eigenvector_signs_witness :
  PreservationOfPrincipalDirectionDiffusionTensor3DReorientation 3 3
    diagonal_eigen_analysis_negated Normalize_unit [1; 0; 0; 2; 0; 3]%Z
    (fun i j => if i =? j then 1%Z else 0%Z)
  = PreservationOfPrincipalDirectionDiffusionTensor3DReorientation 3 3
      diagonal_eigen_analysis Normalize_unit [1; 0; 0; 2; 0; 3]%Z
      (fun i j => if i =? j then 1%Z else 0%Z).
Proof.
  apply (Reorientation_eigenvector_signs 3 3 Normalize_unit
           (laws_ring exact_laws) eq_refl).
  - intros x. cbn. destruct (Z.ltb_spec (0 - x) 0), (Z.ltb_spec 0 x); lia.
  - intros x. cbn. rewrite Z.ltb_lt, Z.ltb_ge. lia.
  - intros x. cbn. rewrite !Z.ltb_ge. lia.
  - intros v. reflexivity.
  - intros k Hk. reflexivity.
  - intros r Hr. right. intros c Hc. reflexivity.
Defined.

Lemma identity_Jacobian_keeps_vectors_witness :
  TransformVector (V := counting_Variant) 3 3 0%Z (mkTransform [] [] 0)
    [4; 5; 6]%Z [] = [4; 5; 6]%Z.
Proof.
  refine (proj1 (identity_Jacobian_keeps_vectors 3 (V := counting_Variant)
                   inverse_of_identity 0%Z (mkTransform [] [] 0) [4; 5; 6]%Z []
                   (laws_ring exact_laws) eq_refl _)).
  intros i j _ _. reflexivity.
Defined.
